(** * s-dash1: time simulation, windowing and run-length segmentation

    A shallow embedding of the two computational cores of the dashboard
    and of the code around them:

    - [Sim]      : the hook [useLiveSimulation]
                   (dashboard/src/hooks/useLiveSimulation.js);
    - [Gantt]    : the block builder of the [GanttChart] component
                   (components/charts/GanttChart);
    - [Posture]  : the processing of the live rows in [PostureView];
    - [Overview] : the latest rows and state counts of [OverviewView];
    - [CowData]  : the cow list of [useCowData] and the latest row of
                   [DetailsPanel].

    Conventions of the embedding.

    - An instant is the integer number of milliseconds since the epoch, as
      [Date.prototype.getTime] returns it: a [Z].  Timestamps of rows are
      ISO strings in the source and are parsed at every use; the embedding
      keeps the parsed instant (all rows carry a valid date).
    - A JavaScript number that may be fractional is a rational [Q], the
      exact value of the double.  The sensor noise rounds after every
      operation: its rounding function is a parameter [fl], constrained by
      [Js.rounds], and its decimal literals have the value of the nearest
      double; [Js.roundDouble] is round to nearest, ties to even.  A
      numeric field of a row is a finite number or absent.  The replay
      clock computes exactly; doubles do the same as long as every value
      is an integer below 2^53.  Where the source can
      produce [NaN] or an infinity (the progress quotient) the type [Js.num]
      carries them explicitly.
    - [Date] getters and setters work in local time.  The local zone is a
      parameter [tz : Js.Zone], the function [LocalTZA] of ECMAScript: the
      offset from UTC in milliseconds, in force at a given instant or for a
      given local time.  Facts that need a steady offset say so. *)

From Stdlib Require Import String Ascii OrderedTypeEx.
From Stdlib Require Import ZArith QArith Qminmax Qabs Qround Qpower.
From Stdlib Require Import Bool Lia Lqa.
From Stdlib Require Import List Permutation Sorted.
Import ListNotations.

(** ** The fragment of the JavaScript runtime the two modules rely on *)

Module Js.

(** [Array.prototype.sort(compareFn)].  ECMAScript requires the sort to be
    stable; for a consistent comparator the result is then unique, and the
    stable insertion sort below computes it.  [compareFn a b <= 0] keeps
    [a] in front of [b]. *)
Section Sort.
Context {A : Type} (compareFn : A -> A -> Z).

Fixpoint insert (x : A) (l : list A) : list A :=
  match l with
  | [] => [x]
  | y :: l' =>
      if (compareFn x y <=? 0)%Z then x :: y :: l' else y :: insert x l'
  end.

Definition sort (l : list A) : list A := fold_right insert [] l.
End Sort.

(** [Math.min(...xs)] and [Math.max(...xs)] on a non-empty array of
    integers ([d] is the first element). *)
Definition min_of (d : Z) (xs : list Z) : Z := fold_right Z.min d xs.
Definition max_of (d : Z) (xs : list Z) : Z := fold_right Z.max d xs.

(** Numbers with the two IEEE specials that the progress formula can
    reach. *)
Inductive num : Type :=
| NaN : num
| Inf (positive : bool) : num
| Fin (q : Q) : num.

Definition Qeqb (a b : Q) : bool := Qeq_bool a b.
Definition Qltb (a b : Q) : bool := negb (Qle_bool b a).

(** [a / b] for finite operands.  A zero divisor is [+0] here: both
    operands are differences of finite numbers. *)
Definition div (a b : Q) : num :=
  if Qeqb b 0 then
    if Qeqb a 0 then NaN else Inf (Qltb 0 a)
  else Fin (a / b).

Definition mul (x y : num) : num :=
  match x, y with
  | NaN, _ | _, NaN => NaN
  | Fin a, Fin b => Fin (a * b)
  | Inf s, Fin b | Fin b, Inf s =>
      if Qeqb b 0 then NaN else Inf (if Qltb b 0 then negb s else s)
  | Inf s, Inf t => Inf (Bool.eqb s t)
  end.

(** [Math.max] and [Math.min]: [NaN] as soon as one argument is. *)
Definition max (x y : num) : num :=
  match x, y with
  | NaN, _ | _, NaN => NaN
  | Inf true, _ | _, Inf true => Inf true
  | Inf false, z | z, Inf false => z
  | Fin a, Fin b => Fin (Qmax a b)
  end.

Definition min (x y : num) : num :=
  match x, y with
  | NaN, _ | _, NaN => NaN
  | Inf false, _ | _, Inf false => Inf false
  | Inf true, z | z, Inf true => z
  | Fin a, Fin b => Fin (Qmin a b)
  end.

(** Rounding of a real result to a double.  [ulpHalf] is the unit roundoff
    2^-53 and [tiny] is half the smallest positive double, 2^-1075: round
    to nearest, whatever it does with ties, is within [ulpHalf * |x|] of a
    result in the normal range and within [tiny] of one in the subnormal
    range.  Results beyond the largest double are not covered. *)
Definition ulpHalf : Q := 1 # 9007199254740992.
Definition tiny : Q := 1 # (2 ^ 1075).
Definition rounds (fl : Q -> Q) : Prop :=
  forall x, Qabs (fl x - x) <= ulpHalf * Qabs x + tiny.

(** Round to nearest, ties to even, onto the doubles: 53 significant bits,
    exponents from -1074 up.  The largest double is not modelled, so a
    result beyond it is rounded as if the exponents went on; the noise,
    which adds at most 1 in magnitude to a finite field, has no such
    result. *)
Definition floorLog2 (x : Q) : Z :=
  let e := (Z.log2 (Qnum x) - Z.log2 (Zpos (Qden x)))%Z in
  if Qle_bool (2 ^ e) x then e else (e - 1)%Z.

Definition nearestEven (q : Q) : Z :=
  let f := Qfloor q in
  match Qcompare (q - inject_Z f) (1 # 2) with
  | Lt => f
  | Gt => (f + 1)%Z
  | Eq => if Z.even f then f else (f + 1)%Z
  end.

Definition roundDouble (x : Q) : Q :=
  if Qeq_bool x 0 then 0
  else let e := Z.max (floorLog2 (Qabs x) - 52) (-1074) in
       inject_Z (nearestEven (x / 2 ^ e)) * 2 ^ e.

(** The doubles that the literals [0.01], [0.1] and [0.0001] denote; [0.5]
    and [2] are doubles themselves. *)
Definition d0_01 : Q := 5764607523034235 # 576460752303423488.
Definition d0_1 : Q := 3602879701896397 # 36028797018963968.
Definition d0_0001 : Q := 7378697629483821 # 73786976294838206464.

(** Outcome of running a function body: it returns a value or throws an
    error, named by its class. *)
Inductive Completion (A : Type) : Type :=
| Normal (value : A)
| Throw (error : string).
Arguments Normal {A} value.
Arguments Throw {A} error.

(** Truthiness of a reference that holds [null] or an integer, and of an
    optional numeric field ([undefined], [null] and [0] are falsy). *)
Definition truthyZ (o : option Z) : bool :=
  match o with Some z => negb (z =? 0)%Z | None => false end.
Definition truthyQ (o : option Q) : bool :=
  match o with Some q => negb (Qeqb q 0) | None => false end.

(** A time zone, as ECMAScript's [LocalTZA(t, isUTC)]: the offset of local
    time from UTC in milliseconds, at the instant [t] when [isUTC] is
    [true], for the local time value [t] when it is [false]. *)
Definition Zone : Type := Z -> bool -> Z.

(** A zone that keeps one offset, such as UTC. *)
Definition fixedZone (offset : Z) : Zone := fun _ _ => offset.

(** America/New_York around the end of daylight-saving time in 2024:
    UTC-4 until 2024-11-03T06:00:00Z, UTC-5 from then on; a local time
    before 02:00 on that day is read with the earlier offset. *)
Definition newYork2024 : Zone :=
  fun t isUTC =>
    if isUTC
    then (if t <? 1730613600000 then -14400000 else -18000000)%Z
    else (if t <? 1730599200000 then -14400000 else -18000000)%Z.

(** Local-time [Date] accessors in the zone [tz]. *)
Section Date.
Variable tz : Zone.
Local Open Scope Z_scope.

Definition msPerDay : Z := 24 * 60 * 60 * 1000.

(** [LocalTime(t)] and [UTC(t)] *)
Definition localTime (t : Z) : Z := t + tz t true.
Definition toUTC (local : Z) : Z := local - tz local false.

Definition getHours (t : Z) : Z := (localTime t mod msPerDay) / 3600000.
Definition getMinutes (t : Z) : Z := (localTime t mod 3600000) / 60000.
Definition getSeconds (t : Z) : Z := (localTime t mod 60000) / 1000.
Definition getMilliseconds (t : Z) : Z := localTime t mod 1000.
(** Start of the local calendar day of [t], as a local time value. *)
Definition localDay (t : Z) : Z := localTime t - localTime t mod msPerDay.

(** The local time value with the date and milliseconds of [t] and the
    hour, minute and second given. *)
Definition makeLocal (t h m s : Z) : Z :=
  localDay t + h * 3600000 + m * 60000 + s * 1000 + getMilliseconds t.

(** [d.setHours(h, m, s)]: same local date and milliseconds, new hour,
    minute and second. *)
Definition setHours (t h m s : Z) : Z := toUTC (makeLocal t h m s).
End Date.

(** A plain object used as a dictionary: its own properties, in the order
    in which their keys were first assigned (the order of [Object.values]
    for keys that are not array indices).  Reading a key that is not an
    own property falls back to [Object.prototype], whose property names
    are listed in [inheritedKeys]. *)
Definition inheritedKeys : list string :=
  ["constructor"; "__proto__"; "hasOwnProperty"; "isPrototypeOf";
   "propertyIsEnumerable"; "toLocaleString"; "toString"; "valueOf";
   "__defineGetter__"; "__defineSetter__"; "__lookupGetter__";
   "__lookupSetter__"]%string.

Definition inherited (k : string) : bool :=
  existsb (String.eqb k) inheritedKeys.

Section Obj.
Context {V : Type}.

(** The own property [k] of [o], if any. *)
Fixpoint get (o : list (string * V)) (k : string) : option V :=
  match o with
  | [] => None
  | (k', v) :: o' => if String.eqb k k' then Some v else get o' k
  end.

(** [o[k] = v], for a key that is not inherited. *)
Fixpoint set (o : list (string * V)) (k : string) (v : V)
  : list (string * V) :=
  match o with
  | [] => [(k, v)]
  | (k', v') :: o' =>
      if String.eqb k k' then (k, v) :: o' else (k', v') :: set o' k v
  end.

Definition values (o : list (string * V)) : list V := map snd o.
End Obj.

(** [[...new Set(xs)]] for strings: first occurrences, in order. *)
Definition setOf (xs : list string) : list string :=
  fold_left (fun seen x => if existsb (String.eqb x) seen then seen
                           else seen ++ [x]) xs [].

(** The comparator [sort()] uses when none is given, on strings. *)
Definition defaultCompare (a b : string) : Z :=
  match String.compare a b with Lt => (-1)%Z | Eq => 0%Z | Gt => 1%Z end.

End Js.

(** ** useLiveSimulation: data preparation, clock and window *)

Module Sim.

(** A row of the dataset.  The four behaviour shares are numbers; the
    remaining sensor fields may be absent ([None] for [undefined] or
    [null]). *)
Record Row : Type := mkRow
  { timestamp : Z; cow_id : string;
    pct_lying : Q; pct_standing : Q; pct_walking : Q; pct_eating : Q;
    neck_temp_c : option Q; activity_index : option Q;
    heat_index : option Q; gps_lat : option Q; gps_long : option Q }.

(** [{ ...d, timestamp: t }] *)
Definition withTimestamp (d : Row) (t : Z) : Row :=
  {| timestamp := t; cow_id := cow_id d;
     pct_lying := pct_lying d; pct_standing := pct_standing d;
     pct_walking := pct_walking d; pct_eating := pct_eating d;
     neck_temp_c := neck_temp_c d; activity_index := activity_index d;
     heat_index := heat_index d; gps_lat := gps_lat d;
     gps_long := gps_long d |}.

(** [(a, b) => new Date(a.timestamp) - new Date(b.timestamp)] *)
Definition byTimestamp (a b : Row) : Z := (timestamp a - timestamp b)%Z.

(** 1. Prepare Data: the [useMemo] callback computing [fullData]. *)
Definition fullData (inputData : list Row) (historyHours : Z) : list Row :=
  match inputData with
  | [] => []
  | _ =>
      let sorted := Js.sort byTimestamp inputData in
      if (historyHours <=? 24)%Z then sorted
      else
        let shifted :=
          map (fun d => withTimestamp d (timestamp d - 24 * 60 * 60 * 1000)%Z)
              sorted in
        shifted ++ sorted
  end.

(** The callback as a whole.  Its body contains no [throw] and, on rows
    with valid dates, calls nothing that throws: it always returns. *)
Definition fullDataMemo (inputData : list Row) (historyHours : Z)
  : Js.Completion (list Row) :=
  Js.Normal (fullData inputData historyHours).

(** Extent of a dataset in milliseconds, between the bounds that
    [initRange] computes. *)
Definition spanOf (rows : list Row) : Z :=
  match map timestamp rows with
  | [] => 0%Z
  | t :: ts => (Js.max_of t ts - Js.min_of t ts)%Z
  end.

(** The three [useRef] cells. *)
Record Refs : Type := mkRefs
  { timeRef : option Q; startTimeRef : option Z; endTimeRef : option Z }.

Definition initialRefs : Refs := mkRefs None None None.

(** 2. Initialize Range: the effect that runs when [fullData] changes. *)
Definition initRange (fullData : list Row) (r : Refs) : Refs :=
  match map timestamp fullData with
  | [] => r
  | t :: ts =>
      let start := Js.min_of t ts in
      {| timeRef := if Js.truthyQ (timeRef r) then timeRef r
                    else Some (inject_Z start);
         startTimeRef := Some start;
         endTimeRef := Some (Js.max_of t ts) |}
  end.

(** 3. Timer Loop: whether the effect reaches [setInterval]; when it
    returns early no tick ever runs. *)
Definition timerStarts (fullData : list Row) (r : Refs) : bool :=
  negb ((List.length fullData =? 0)%nat
        || negb (Js.truthyZ (startTimeRef r))
        || negb (Js.truthyZ (endTimeRef r))).

(** LIVE branch of the tick: the value assigned to [now].  [realNow] is
    the wall clock read by [new Date()]. *)
Definition liveTarget (tz : Js.Zone) (realNow endTime : Z) : Z :=
  Js.setHours tz endTime
    (Js.getHours tz realNow) (Js.getMinutes tz realNow)
    (Js.getSeconds tz realNow).

Definition liveStep (tz : Js.Zone) (realNow startTime endTime : Z) : Z :=
  let now := liveTarget tz realNow endTime in
  let now := if (endTime <? now)%Z then (now - 24 * 60 * 60 * 1000)%Z
             else now in
  let now := if (now <? startTime)%Z then (now + 24 * 60 * 60 * 1000)%Z
             else now in
  now.

(** The offset in force at [endTime] is also the one with which the
    candidate of the LIVE tick is converted to an instant, and the one in
    force at that instant: no change of offset lies between the two.  It
    always holds in a zone with a fixed offset. *)
Definition steadyOffset (tz : Js.Zone) (realNow endTime : Z) : Prop :=
  tz (Js.makeLocal tz endTime (Js.getHours tz realNow)
                   (Js.getMinutes tz realNow) (Js.getSeconds tz realNow))
     false
  = tz endTime true
  /\ tz (liveTarget tz realNow endTime) true = tz endTime true.

(** REPLAY branch of the tick.  The arithmetic is exact; so is that of the
    source whenever [replaySpeed] is a multiple of 10 and the instants are
    integers below 2^53, the step being a whole number of minutes. *)
Definition msPerTick (replaySpeed : Q) : Q := (replaySpeed / 10) * 60 * 1000.

Definition replayStep (replaySpeed : Q) (startTime endTime : Z) (now : Q)
  : Q :=
  let now := now + msPerTick replaySpeed in
  if Qle_bool (inject_Z endTime) now then inject_Z startTime else now.

Definition advance (isLive : bool) (replaySpeed : Q) (tz : Js.Zone)
           (realNow : Z)
           (startTime endTime : Z) (now : Q) : Q :=
  if isLive then inject_Z (liveStep tz realNow startTime endTime)
  else replayStep replaySpeed startTime endTime now.

(** [Math.min(100, Math.max(0, (elapsed / total) * 100))] *)
Definition progressOf (startTime endTime : Z) (now : Q) : Js.num :=
  let total := inject_Z endTime - inject_Z startTime in
  let elapsed := now - inject_Z startTime in
  Js.min (Js.Fin 100) (Js.max (Js.Fin 0)
    (Js.mul (Js.div elapsed total) (Js.Fin 100))).

(** [fullData.filter(d => new Date(d.timestamp).getTime() <= now)] *)
Definition slice (fullData : list Row) (now : Q) : list Row :=
  filter (fun d => Qle_bool (inject_Z (timestamp d)) now) fullData.

(** What one tick hands to the three state setters. *)
Record Output : Type := mkOutput
  { currentTime : Z; progress : Js.num; currentData : list Row }.

(** [new Date(now)] keeps the integral part of [now]. *)
Definition toDate (now : Q) : Z := Z.quot (Qnum now) (Zpos (Qden now)).

(** Sensor noise.  [Math.random] is the only effect: [random i] is the
    result of its [i]-th call, and a computation threads the number of
    calls made so far.  Every subtraction, product and sum is rounded to a
    double by [fl]; [Math.max] and [Math.min] return one of their
    arguments. *)
Section Noise.
Variable random : nat -> Q.
Variable fl : Q -> Q.

Definition Rand (A : Type) : Type := nat -> A * nat.
Definition ret {A} (a : A) : Rand A := fun i => (a, i).
Definition bind {A B} (c : Rand A) (k : A -> Rand B) : Rand B :=
  fun i => let (a, j) := c i in k a j.
Definition draw : Rand Q := fun i => (random i, S i).

Notation "x <- c ;; k" := (bind c (fun x => k))
  (at level 61, c at next level, right associativity).

(** [() => (Math.random() - 0.5) * 0.01] *)
Definition noise : Rand Q :=
  r <- draw ;; ret (fl (fl (r - 0.5) * Js.d0_01)).

(** [Math.max(0, Math.min(1, x))] *)
Definition clamp01 (x : Q) : Q := Qmax 0 (Qmin 1 x).

(** [if (f) f += (Math.random() - 0.5) * width] *)
Definition jitter (width : Q) (f : option Q) : Rand (option Q) :=
  if Js.truthyQ f
  then r <- draw ;;
       ret (option_map (fun v => fl (v + fl (fl (r - 0.5) * width))) f)
  else ret f.

Definition perturb (lastPoint : Row) : Rand Row :=
  n1 <- noise ;; n2 <- noise ;; n3 <- noise ;; n4 <- noise ;;
  temp <- jitter Js.d0_1 (neck_temp_c lastPoint) ;;
  act <- jitter 2 (activity_index lastPoint) ;;
  heat <- jitter 0.5 (heat_index lastPoint) ;;
  lat <- jitter Js.d0_0001 (gps_lat lastPoint) ;;
  long <- jitter Js.d0_0001 (gps_long lastPoint) ;;
  ret {| timestamp := timestamp lastPoint; cow_id := cow_id lastPoint;
         pct_lying := clamp01 (fl (pct_lying lastPoint + n1));
         pct_standing := clamp01 (fl (pct_standing lastPoint + n2));
         pct_walking := clamp01 (fl (pct_walking lastPoint + n3));
         pct_eating := clamp01 (fl (pct_eating lastPoint + n4));
         neck_temp_c := temp; activity_index := act;
         heat_index := heat; gps_lat := lat; gps_long := long |}.

(** [sliced = [...sliced.slice(0, -1), lastPoint]] *)
Definition addNoise (sliced : list Row) : Rand (list Row) :=
  match rev sliced with
  | [] => ret sliced
  | lastPoint :: _ =>
      p <- perturb lastPoint ;; ret (removelast sliced ++ [p])
  end.

(** The [setInterval] callback.  The three references are passed by
    value; the new content of [timeRef] is returned with the output. *)
Definition tick (isLive : bool) (replaySpeed : Q) (fullData : list Row)
           (tz : Js.Zone) (realNow : Z) (startTime endTime : Z) (now : Q)
  : Rand (Q * Output) :=
  let now := advance isLive replaySpeed tz realNow startTime endTime now in
  let sliced := slice fullData now in
  sliced <- (if isLive && (0 <? List.length sliced)%nat
             then addNoise sliced else ret sliced) ;;
  ret (now, {| currentTime := toDate now;
               progress := progressOf startTime endTime now;
               currentData := sliced |}).
End Noise.

(** Bounds on what the noise may do to one field.  A field that was
    [before] may move by [bound] and by what three roundings add, which
    [allowance] covers: 2^-50 * (1 + |before|). *)
Definition share (x : Q) : Prop := 0 <= x /\ x <= 1.
Definition allowance (before : Q) : Q :=
  (1 # 1125899906842624) * (1 + Qabs before).
Definition within (bound before after : Q) : Prop :=
  Qabs (after - before) <= bound + allowance before.

(** How far a product [fl (fl (r - 0.5) * width)], with [r] in [0,1), and
    the rounding of the sum take a field, apart from the part of that
    rounding that is relative to the field. *)
Definition reach (width : Q) : Q :=
  (((1 # 2) + Js.ulpHalf * (1 # 2) + Js.tiny) * width * (1 + Js.ulpHalf)
   + Js.tiny) * (1 + Js.ulpHalf) + Js.tiny.
Definition withinOpt (bound : Q) (before after : option Q) : Prop :=
  match before, after with
  | Some x, Some y => within bound x y
  | None, None => True
  | _, _ => False
  end.

(** The bounds of the noise on the replaced last row: the four shares stay
    in [0,1] and move by at most 0.005, the temperature by at most 0.05,
    the activity index by at most 1, the heat index by at most 0.25 and
    each coordinate by at most 0.00005, each up to the [allowance] for
    rounding. *)
Definition noiseBounded (before after : Row) : Prop :=
  (share (pct_lying after) /\ share (pct_standing after)
   /\ share (pct_walking after) /\ share (pct_eating after))
  /\ (within 0.005 (pct_lying before) (pct_lying after)
      /\ within 0.005 (pct_standing before) (pct_standing after)
      /\ within 0.005 (pct_walking before) (pct_walking after)
      /\ within 0.005 (pct_eating before) (pct_eating after))
  /\ withinOpt 0.05 (neck_temp_c before) (neck_temp_c after)
  /\ withinOpt 1 (activity_index before) (activity_index after)
  /\ withinOpt 0.25 (heat_index before) (heat_index after)
  /\ withinOpt 0.00005 (gps_lat before) (gps_lat after)
  /\ withinOpt 0.00005 (gps_long before) (gps_long after).

(** A row for worked examples. *)
Definition exampleRow (t : Z) : Row :=
  mkRow t "COW_01" 0.5 0.3 0.1 0.1
        (Some 38.5) (Some 12) (Some 72) (Some 30.1) (Some (-97.7)).

(** [n] consecutive REPLAY ticks, seen from [timeRef]. *)
Definition replayTicks (replaySpeed : Q) (startTime endTime : Z) (n : nat)
           (now : Q) : Q :=
  Nat.iter n (replayStep replaySpeed startTime endTime) now.

(** [lo] and [hi] are the earliest and the latest timestamp of [rows]. *)
Definition isRange (rows : list Row) (lo hi : Z) : Prop :=
  (exists d, In d rows /\ timestamp d = lo)
  /\ (exists d, In d rows /\ timestamp d = hi)
  /\ (forall d, In d rows -> (lo <= timestamp d <= hi)%Z).

(** [resetSimulation]: the new references and, when the guard passes, the
    values handed to [setCurrentTime] and [setCurrentData]. *)
Definition resetSimulation (r : Refs) : Refs * option (Z * list Row) :=
  match startTimeRef r with
  | Some start =>
      if Js.truthyZ (startTimeRef r)
      then ({| timeRef := Some (inject_Z start);
               startTimeRef := startTimeRef r;
               endTimeRef := endTimeRef r |}, Some (start, []))
      else (r, None)
  | None => (r, None)
  end.

End Sim.

(** ** GanttChart: run-length blocks of the state samples *)

Module Gantt.

(** An element of [dataPoints]. *)
Record Point : Type := mkPoint
  { timestamp : Z; state : Z; animalId : string }.

(** An element of [blocks]. *)
Record Block : Type := mkBlock
  { b_state : Z; b_start : Z; b_end : Z; b_animalId : string }.

(** The comparator given to [sort]: by [animalId], then by [timestamp]. *)
Definition compareFn (a b : Point) : Z :=
  if String.ltb (animalId a) (animalId b) then (-1)%Z
  else if String.ltb (animalId b) (animalId a) then 1%Z
  else (timestamp a - timestamp b)%Z.

Definition sortedData (dataPoints : list Point) : list Point :=
  Js.sort compareFn dataPoints.

Definition openBlock (p : Point) : Block :=
  {| b_state := state p; b_start := timestamp p;
     b_end := timestamp p; b_animalId := animalId p |}.

Definition extend (cur : Block) (p : Point) : Block :=
  {| b_state := b_state cur; b_start := b_start cur;
     b_end := timestamp p; b_animalId := b_animalId cur |}.

(** [point.state !== currentBlock.state ||
     point.animalId !== currentBlock.animalId] *)
Definition breaks (p : Point) (cur : Block) : bool :=
  negb (state p =? b_state cur)%Z
  || negb (String.eqb (animalId p) (b_animalId cur)).

(** The [for] loop over [sortedData[1..]], with the array [blocks] and the
    variable [currentBlock] as explicit state, followed by the final
    [blocks.push(currentBlock)]. *)
Fixpoint loop (blocks : list Block) (currentBlock : Block)
         (points : list Point) : list Block :=
  match points with
  | [] => blocks ++ [currentBlock]
  | point :: rest =>
      if breaks point currentBlock
      then loop (blocks ++ [currentBlock]) (openBlock point) rest
      else loop blocks (extend currentBlock point) rest
  end.

(** The array [blocks] built inside [chartData].  (For an empty
    [dataPoints] the callback returns before building anything: there is
    no block.) *)
Definition blocksOf (dataPoints : list Point) : list Block :=
  match sortedData dataPoints with
  | [] => []
  | first :: rest => loop [] (openBlock first) rest
  end.

(** What a block stands for: a non-empty run of points of one animal in
    one state, all stamped within the block's bounds, the first at its
    start and the last at its end. *)
Definition covers (b : Block) (run : list Point) : Prop :=
  Forall (fun p => animalId p = b_animalId b /\ state p = b_state b
                   /\ (b_start b <= timestamp p <= b_end b)%Z) run
  /\ option_map timestamp (hd_error run) = Some (b_start b)
  /\ option_map timestamp (hd_error (rev run)) = Some (b_end b).

(** Lexicographic order on (animalId, timestamp). *)
Definition pointLe (a b : Point) : Prop :=
  String_as_OT.lt (animalId a) (animalId b)
  \/ (animalId a = animalId b /\ (timestamp a <= timestamp b)%Z).

(** A point [q] comes after the open block. *)
Definition after (cur : Block) (q : Point) : Prop :=
  String_as_OT.lt (b_animalId cur) (animalId q)
  \/ (b_animalId cur = animalId q /\ (b_end cur <= timestamp q)%Z).

(** Order of two blocks: by animal, and within an animal by time without
    overlap. *)
Definition blockLe (b1 b2 : Block) : Prop :=
  String_as_OT.lt (b_animalId b1) (b_animalId b2)
  \/ (b_animalId b1 = b_animalId b2 /\ (b_end b1 <= b_start b2)%Z).

(** Two neighbours never continue one another. *)
Definition distinct (b1 b2 : Block) : Prop :=
  b_state b1 <> b_state b2 \/ b_animalId b1 <> b_animalId b2.

(** The blocks of one animal, in output order. *)
Definition ofAnimal (e : string) (blocks : list Block) : list Block :=
  filter (fun b => String.eqb (b_animalId b) e) blocks.

(** [calculatedMin] and [calculatedMax] of [chartData] ([None] for
    [null]). *)
Definition calculatedMin (blocks : list Block) : option Z :=
  option_map b_start (hd_error blocks).
Definition calculatedMax (blocks : list Block) : option Z :=
  option_map b_end (hd_error (rev blocks)).

(** [options.scales.x.min]: [minTime || chartData?.min], with [blocks] the
    blocks of [chartData] ([None] for [undefined] or [null]). *)
Definition axisMin (minTime : option Q) (blocks : list Block) : option Q :=
  if Js.truthyQ minTime then minTime
  else option_map inject_Z (calculatedMin blocks).

(** A bar of a dataset: [{ x: [b.start, b.end], y: ... }]. *)
Record Bar : Type := mkBar { x : Z * Z; y : string }.

(** [blocks.filter(b => b.state === s).map(b => ({ x: [b.start, b.end],
     y: isAll ? b.animalId : label }))] *)
Definition barsOf (s : Z) (label : string) (isAll : bool)
           (blocks : list Block) : list Bar :=
  map (fun b => {| x := (b_start b, b_end b);
                   y := if isAll then b_animalId b else label |})
      (filter (fun b => (b_state b =? s)%Z) blocks).

(** The [data] arrays of the three datasets, in the order Lying, Standing,
    Eating. *)
Definition datasets (isAll : bool) (blocks : list Block)
  : list Bar * list Bar * list Bar :=
  (barsOf 0 "Lying" isAll blocks, barsOf 1 "Standing" isAll blocks,
   barsOf 2 "Eating" isAll blocks).

End Gantt.

(** ** PostureView: from the live rows to the points of the chart *)

Module Posture.

(** The categorical state of a row: the largest of the lying, standing and
    eating shares wins, the first of them on a tie. *)
Definition mappedState (row : Sim.Row) : Z :=
  let max := Qmax (Qmax (Sim.pct_lying row) (Sim.pct_standing row))
                  (Sim.pct_eating row) in
  if Js.Qeqb max (Sim.pct_lying row) then 0%Z
  else if Js.Qeqb max (Sim.pct_standing row) then 1%Z
  else if Js.Qeqb max (Sim.pct_eating row) then 2%Z
  else 0%Z.

(** [newStats], counting rows per state. *)
Record Stats : Type := mkStats { lying : nat; standing : nat; eating : nat }.

Definition bump (st : Stats) (mapped : Z) : Stats :=
  if (mapped =? 0)%Z
  then {| lying := S (lying st); standing := standing st;
          eating := eating st |}
  else if (mapped =? 1)%Z
  then {| lying := lying st; standing := S (standing st);
          eating := eating st |}
  else {| lying := lying st; standing := standing st;
          eating := S (eating st) |}.

(** [isAll ? liveData
          : liveData.filter(row => String(row.cow_id) === selectedAnimal)] *)
Definition filteredData (liveData : list Sim.Row) (selectedAnimal : string)
  : list Sim.Row :=
  if String.eqb selectedAnimal "All Animals" then liveData
  else filter (fun row => String.eqb (Sim.cow_id row) selectedAnimal)
              liveData.

Definition toPoint (row : Sim.Row) : Gantt.Point :=
  {| Gantt.timestamp := Sim.timestamp row;
     Gantt.state := mappedState row;
     Gantt.animalId := Sim.cow_id row |}.

(** The effect that processes [liveData]: the values given to [setResults]
    and [setStats], or [None] when it returns early on an empty
    [liveData]. *)
Definition process (liveData : list Sim.Row) (selectedAnimal : string)
  : option (list Gantt.Point * Stats) :=
  match liveData with
  | [] => None
  | _ =>
      let rows := filteredData liveData selectedAnimal in
      Some (map toPoint rows,
            fold_left (fun st row => bump st (mappedState row)) rows
                      (mkStats 0 0 0))
  end.

(** [minTime] and [maxTime] handed to the chart ([None] for
    [undefined]); [currentTime] is [None] while the state is [null]. *)
Definition chartWindow (currentTime : option Z) (isLive : bool)
           (zoomLevel : Q) (data : list Sim.Row) (historyHours : Z)
  : option Q * option Q :=
  match currentTime with
  | None => (None, None)
  | Some t =>
      if isLive then
        let maxTime := inject_Z t in
        (Some (maxTime - zoomLevel * 60 * 60 * 1000), Some maxTime)
      else
        match data with
        | [] => (None, None)
        | d0 :: _ =>
            let start := inject_Z (Sim.timestamp d0) in
            (Some start,
             Some (start + inject_Z historyHours * 60 * 60 * 1000))
        end
  end.

(** Number of points in state [k]. *)
Definition countState (k : Z) (points : list Gantt.Point) : nat :=
  List.length (filter (fun p => (Gantt.state p =? k)%Z) points).

End Posture.

(** ** OverviewView: the latest row of each cow and the state counts *)

Module Overview.

(** The body of [liveData.forEach] filling the object [latest].  When the
    cow id names an inherited property, [latest[d.cow_id]] is a truthy
    function or object without a [timestamp]: the date comparison is false
    and nothing is stored. *)
Definition keepLatest (latest : list (string * Sim.Row)) (d : Sim.Row)
  : list (string * Sim.Row) :=
  match Js.get latest (Sim.cow_id d) with
  | None =>
      if Js.inherited (Sim.cow_id d) then latest
      else Js.set latest (Sim.cow_id d) d
  | Some old =>
      if (Sim.timestamp old <? Sim.timestamp d)%Z
      then Js.set latest (Sim.cow_id d) d
      else latest
  end.

Definition latestData (liveData : list Sim.Row) : list Sim.Row :=
  Js.values (fold_left keepLatest liveData []).

(** The four counters of [donutData]. *)
Record Counts : Type := mkCounts
  { lying : nat; standing : nat; walking : nat; eating : nat }.

Definition tally (c : Counts) (d : Sim.Row) : Counts :=
  let max := Qmax (Qmax (Qmax (Sim.pct_lying d) (Sim.pct_standing d))
                        (Sim.pct_walking d)) (Sim.pct_eating d) in
  if Js.Qeqb max (Sim.pct_lying d)
  then mkCounts (S (lying c)) (standing c) (walking c) (eating c)
  else if Js.Qeqb max (Sim.pct_standing d)
  then mkCounts (lying c) (S (standing c)) (walking c) (eating c)
  else if Js.Qeqb max (Sim.pct_walking d)
  then mkCounts (lying c) (standing c) (S (walking c)) (eating c)
  else if Js.Qeqb max (Sim.pct_eating d)
  then mkCounts (lying c) (standing c) (walking c) (S (eating c))
  else c.

Definition donutData (latestData : list Sim.Row) : Counts :=
  fold_left tally latestData (mkCounts 0 0 0 0).

End Overview.

(** ** useCowData and DetailsPanel: cow list and latest row of one cow *)

Module CowData.

(** [[...new Set(rawData.map(r => r.cow_id))].filter(Boolean).sort()] *)
Definition uniqueCows (rawData : list Sim.Row) : list string :=
  Js.sort Js.defaultCompare
    (filter (fun id => negb (String.eqb id ""))
            (Js.setOf (map Sim.cow_id rawData))).

(** [(a, b) => new Date(b.timestamp) - new Date(a.timestamp)] *)
Definition latestFirst (a b : Sim.Row) : Z :=
  (Sim.timestamp b - Sim.timestamp a)%Z.

(** [latestRow] of [DetailsPanel] ([None] for [null] or [undefined]). *)
Definition latestRow (allData : list Sim.Row) (id : string)
  : option Sim.Row :=
  match allData with
  | [] => None
  | _ =>
      let cowRows :=
        filter (fun r => String.eqb (Sim.cow_id r) id) allData in
      hd_error (Js.sort latestFirst cowRows)
  end.

End CowData.

(** ** Facts *)

(** *** Array.prototype.sort *)

Section SortFacts.
Context {A : Type} (compareFn : A -> A -> Z).

Let le (x y : A) : Prop := (compareFn x y <= 0)%Z.

Lemma insert_perm (x : A) (l : list A) :
  Permutation (Js.insert compareFn x l) (x :: l).
Proof.
  induction l as [|y l IH]; simpl; [reflexivity|].
  destruct (compareFn x y <=? 0)%Z; [reflexivity|].
  rewrite IH. apply perm_swap.
Qed.

Lemma sort_perm (l : list A) : Permutation (Js.sort compareFn l) l.
Proof.
  induction l as [|x l IH]; simpl; [constructor|].
  rewrite insert_perm. now constructor.
Qed.

Lemma sort_length (l : list A) :
  List.length (Js.sort compareFn l) = List.length l.
Proof. apply Permutation_length, sort_perm. Qed.

Lemma sort_nil_inv (l : list A) : Js.sort compareFn l = [] -> l = [].
Proof.
  intros H. apply Permutation_nil. rewrite <- H. apply sort_perm.
Qed.

(** Elements that the comparator ranks as equal keep their order. *)
Lemma insert_filter (P : A -> bool) (x : A) (l : list A) :
  (forall a b, P a = true -> P b = true -> le a b) ->
  filter P (Js.insert compareFn x l) = filter P (x :: l).
Proof.
  intros HP. induction l as [|y l IH]; simpl; [reflexivity|].
  destruct (compareFn x y <=? 0)%Z eqn:E; [reflexivity|].
  simpl in *. rewrite IH.
  destruct (P x) eqn:Px, (P y) eqn:Py; try reflexivity.
  apply Z.leb_gt in E. specialize (HP x y Px Py). unfold le in HP. lia.
Qed.

Lemma sort_stable (P : A -> bool) (l : list A) :
  (forall a b, P a = true -> P b = true -> le a b) ->
  filter P (Js.sort compareFn l) = filter P l.
Proof.
  intros HP. induction l as [|x l IH]; simpl; [reflexivity|].
  rewrite insert_filter by assumption. simpl. now rewrite IH.
Qed.

Hypothesis le_total : forall x y, le x y \/ le y x.
Hypothesis le_trans : forall x y z, le x y -> le y z -> le x z.

Lemma insert_sorted (x : A) (l : list A) :
  StronglySorted le l -> StronglySorted le (Js.insert compareFn x l).
Proof.
  induction 1 as [|y l Hs IH Hy]; simpl.
  - repeat constructor.
  - destruct (compareFn x y <=? 0)%Z eqn:E.
    + apply Z.leb_le in E. constructor; [now constructor|].
      constructor; [exact E|].
      eapply Forall_impl; [|exact Hy]. intros z Hz. now apply le_trans with y.
    + apply Z.leb_gt in E. constructor; [exact IH|].
      rewrite insert_perm. constructor; [|exact Hy].
      destruct (le_total x y) as [H|H]; [unfold le in H; lia|exact H].
Qed.

Lemma sort_sorted (l : list A) : StronglySorted le (Js.sort compareFn l).
Proof.
  induction l as [|x l IH]; simpl; [constructor|]. now apply insert_sorted.
Qed.
End SortFacts.

(** *** Generic list facts used for the per-animal view of the blocks *)

Section ListFacts.
Context {A : Type}.

Lemma StronglySorted_filter (R : A -> A -> Prop) (f : A -> bool) l :
  StronglySorted R l -> StronglySorted R (filter f l).
Proof.
  induction 1 as [|x l Hs IH Hx]; simpl; [constructor|].
  destruct (f x); [|exact IH].
  constructor; [exact IH|].
  apply Forall_forall. intros y Hy. apply filter_In in Hy as [Hy _].
  rewrite Forall_forall in Hx. now apply Hx.
Qed.

Lemma StronglySorted_weaken (R R' : A -> A -> Prop) l :
  (forall a b, In a l -> In b l -> R a b -> R' a b) ->
  StronglySorted R l -> StronglySorted R' l.
Proof.
  intros HR Hs. induction Hs as [|x l Hs IH Hx]; [constructor|].
  constructor.
  - apply IH. intros a b Ha Hb. apply HR; now right.
  - rewrite Forall_forall in *. intros y Hy.
    apply HR; [now left|now right|now apply Hx].
Qed.
End ListFacts.

(** *** GanttChart: the comparator is a total preorder *)

Section GanttOrder.
Import Gantt.
Local Open Scope Z_scope.

Lemma string_ltb_lt (s t : string) : String.ltb s t = true <-> String_as_OT.lt s t.
Proof.
  unfold String.ltb. rewrite <- String_as_OT.cmp_lt. unfold String_as_OT.cmp.
  destruct (String.compare s t); split; congruence.
Qed.

Lemma string_lt_irrefl (s : string) : ~ String_as_OT.lt s s.
Proof. intros H. apply String_as_OT.lt_not_eq in H. now apply H. Qed.

Lemma string_lt_asym (s t : string) : String_as_OT.lt s t -> ~ String_as_OT.lt t s.
Proof.
  intros H1 H2. apply (string_lt_irrefl s). now apply String_as_OT.lt_trans with t.
Qed.

Lemma string_lt_trichotomy (s t : string) :
  String_as_OT.lt s t \/ s = t \/ String_as_OT.lt t s.
Proof.
  destruct (String_as_OT.compare s t) as [H|H|H]; auto.
Qed.

Lemma compareFn_le (a b : Point) : compareFn a b <= 0 <-> pointLe a b.
Proof.
  unfold compareFn, pointLe.
  destruct (String.ltb (animalId a) (animalId b)) eqn:E1.
  - apply string_ltb_lt in E1. split; [auto|lia].
  - destruct (String.ltb (animalId b) (animalId a)) eqn:E2.
    + apply string_ltb_lt in E2. split; [lia|].
      intros [H|[H _]].
      * now apply string_lt_asym in H.
      * rewrite H in E2. now apply string_lt_irrefl in E2.
    + assert (N1 : ~ String_as_OT.lt (animalId a) (animalId b))
        by (rewrite <- string_ltb_lt; congruence).
      assert (N2 : ~ String_as_OT.lt (animalId b) (animalId a))
        by (rewrite <- string_ltb_lt; congruence).
      destruct (string_lt_trichotomy (animalId a) (animalId b)) as [H|[H|H]];
        try contradiction.
      split; [intros; right; split; [exact H|lia]|].
      intros [H'|[_ H']]; [contradiction|lia].
Qed.

Lemma pointLe_total (a b : Point) : pointLe a b \/ pointLe b a.
Proof.
  unfold pointLe.
  destruct (string_lt_trichotomy (animalId a) (animalId b)) as [H|[H|H]]; auto.
  destruct (Z_le_gt_dec (timestamp a) (timestamp b)).
  - left; right; auto.
  - right; right; split; [auto|lia].
Qed.

Lemma pointLe_trans (a b c : Point) :
  pointLe a b -> pointLe b c -> pointLe a c.
Proof.
  unfold pointLe. intros [H1|[H1 T1]] [H2|[H2 T2]].
  - left. now apply String_as_OT.lt_trans with (animalId b).
  - left. now rewrite <- H2.
  - left. now rewrite H1.
  - right. split; [congruence|lia].
Qed.

Lemma sortedData_sorted (dataPoints : list Point) :
  StronglySorted pointLe (sortedData dataPoints).
Proof.
  apply StronglySorted_weaken
    with (R := fun x y => compareFn x y <= 0).
  - intros a b _ _. apply compareFn_le.
  - apply sort_sorted.
    + intros x y. rewrite !compareFn_le. apply pointLe_total.
    + intros x y z. rewrite !compareFn_le. apply pointLe_trans.
Qed.
End GanttOrder.

(** *** GanttChart: the scanning loop *)

Section GanttLoop.
Import Gantt.
Local Open Scope Z_scope.

Lemma loop_acc (blocks : list Block) cur points :
  loop blocks cur points = blocks ++ loop [] cur points.
Proof.
  revert blocks cur. induction points as [|p rest IH]; intros; simpl.
  - reflexivity.
  - destruct (breaks p cur).
    + rewrite IH, (IH [cur]). now rewrite <- app_assoc.
    + apply IH.
Qed.

Lemma loop_break cur p rest :
  breaks p cur = true ->
  loop [] cur (p :: rest) = cur :: loop [] (openBlock p) rest.
Proof. intros H. simpl. rewrite H. apply (loop_acc [cur]). Qed.

Lemma loop_extend cur p rest :
  breaks p cur = false ->
  loop [] cur (p :: rest) = loop [] (extend cur p) rest.
Proof. intros H. simpl. now rewrite H. Qed.

Lemma breaks_false p cur :
  breaks p cur = false ->
  state p = b_state cur /\ animalId p = b_animalId cur.
Proof.
  unfold breaks. intros H. apply orb_false_elim in H as [H1 H2].
  apply negb_false_iff in H1, H2.
  apply Z.eqb_eq in H1. apply String.eqb_eq in H2. now split.
Qed.

Lemma breaks_true p cur :
  breaks p cur = true ->
  state p <> b_state cur \/ animalId p <> b_animalId cur.
Proof.
  unfold breaks. intros H. apply orb_true_elim in H as [H|H];
    apply negb_true_iff in H.
  - left. now apply Z.eqb_neq.
  - right. now apply String.eqb_neq.
Qed.

(** Every sample ends up in exactly one run, and each block is the
    summary of its run. *)
Lemma loop_covers points : forall cur run,
  covers cur run ->
  Forall (after cur) points ->
  StronglySorted pointLe points ->
  exists runs, concat runs = run ++ points
               /\ Forall2 covers (loop [] cur points) runs.
Proof.
  induction points as [|p rest IH]; intros cur run Hc Haft Hs.
  - exists [run]. simpl. split; [reflexivity|].
    constructor; [exact Hc|constructor].
  - apply StronglySorted_inv in Hs as [Hs Hp].
    apply Forall_cons_iff in Haft as [Hap Har].
    destruct (breaks p cur) eqn:E.
    + rewrite loop_break by exact E.
      destruct (IH (openBlock p) [p]) as (runs & Hcat & Hall);
        [|exact Hp|exact Hs|].
      { split; [|split; reflexivity].
        constructor; [simpl; repeat split; lia|constructor]. }
      exists (run :: runs). simpl. rewrite Hcat. split; [reflexivity|].
      now constructor.
    + rewrite loop_extend by exact E.
      apply breaks_false in E as [Es Ea].
      destruct Hc as (Hall & Hhd & Hlast).
      assert (Hend : b_end cur <= timestamp p).
      { destruct Hap as [H|[_ H]]; [|exact H].
        rewrite Ea in H. now apply string_lt_irrefl in H. }
      assert (Hse : b_start cur <= b_end cur).
      { destruct run as [|p0 run']; [discriminate|].
        apply Forall_inv in Hall. lia. }
      destruct (IH (extend cur p) (run ++ [p])) as (runs & Hcat & Hf).
      * split; [|split].
        -- apply Forall_app. split.
           ++ eapply Forall_impl; [|exact Hall]. simpl.
              intros q (H1 & H2 & H3). repeat split; auto; lia.
           ++ constructor; [simpl; repeat split; auto; lia|constructor].
        -- destruct run; [discriminate|exact Hhd].
        -- now rewrite rev_app_distr.
      * eapply Forall_impl; [|exact Hp]. intros q Hq.
        unfold after, pointLe in *. simpl. now rewrite <- Ea.
      * exact Hs.
      * exists runs. split; [|exact Hf].
        now rewrite Hcat, <- app_assoc.
Qed.

(** Where the blocks of a scan start. *)
Lemma loop_origin points : forall cur b,
  In b (loop [] cur points) ->
  (b_animalId b = b_animalId cur /\ b_start b = b_start cur)
  \/ exists q, In q points
               /\ b_animalId b = animalId q /\ b_start b = timestamp q.
Proof.
  induction points as [|p rest IH]; intros cur b Hb.
  - destruct Hb as [<-|[]]. now left.
  - destruct (breaks p cur) eqn:E.
    + rewrite loop_break in Hb by exact E. destruct Hb as [<-|Hb].
      * now left.
      * right. apply IH in Hb as [[H1 H2]|(q & Hq & H1 & H2)].
        -- exists p. simpl in *. auto.
        -- exists q. simpl. auto.
    + rewrite loop_extend in Hb by exact E.
      apply IH in Hb as [[H1 H2]|(q & Hq & H1 & H2)].
      * now left.
      * right. exists q. simpl. auto.
Qed.

Lemma loop_head points : forall cur,
  exists b tl, loop [] cur points = b :: tl
               /\ b_animalId b = b_animalId cur /\ b_state b = b_state cur.
Proof.
  induction points as [|p rest IH]; intros cur.
  - simpl. eauto.
  - destruct (breaks p cur) eqn:E.
    + rewrite loop_break by exact E. eauto.
    + rewrite loop_extend by exact E.
      destruct (IH (extend cur p)) as (b & tl & H & H1 & H2). eauto.
Qed.

Lemma loop_sorted points : forall cur,
  b_start cur <= b_end cur ->
  Forall (after cur) points ->
  StronglySorted pointLe points ->
  StronglySorted blockLe (loop [] cur points)
  /\ Forall (fun b => b_start b <= b_end b) (loop [] cur points)
  /\ Sorted distinct (loop [] cur points).
Proof.
  induction points as [|p rest IH]; intros cur Hse Haft Hs.
  - simpl. repeat constructor. exact Hse.
  - apply StronglySorted_inv in Hs as [Hs Hp].
    apply Forall_cons_iff in Haft as [Hap Har].
    destruct (breaks p cur) eqn:E.
    + rewrite loop_break by exact E.
      destruct (IH (openBlock p)) as (S1 & S2 & S3);
        [simpl; lia|exact Hp|exact Hs|].
      repeat split.
      * constructor; [exact S1|].
        apply Forall_forall. intros b Hb.
        apply loop_origin in Hb as [[H1 H2]|(q & Hq & H1 & H2)];
          unfold blockLe; rewrite H1, H2.
        -- exact Hap.
        -- rewrite Forall_forall in Har. now apply Har.
      * now constructor.
      * constructor; [exact S3|].
        destruct (loop_head rest (openBlock p)) as (b & tl & -> & H1 & H2).
        constructor. unfold distinct. rewrite H1, H2. simpl.
        apply breaks_true in E. destruct E; [left|right]; congruence.
    + rewrite loop_extend by exact E.
      apply breaks_false in E as [Es Ea].
      apply IH.
      * simpl. destruct Hap as [H|[_ H]]; [|lia].
        rewrite Ea in H. now apply string_lt_irrefl in H.
      * eapply Forall_impl; [|exact Hp]. intros q Hq.
        unfold after, pointLe in *. simpl. now rewrite <- Ea.
      * exact Hs.
Qed.

Lemma ofAnimal_empty e blocks :
  Forall (fun b => String_as_OT.lt e (b_animalId b)) blocks ->
  ofAnimal e blocks = [].
Proof.
  induction 1 as [|b l Hb _ IH]; simpl; [reflexivity|].
  destruct (String.eqb_spec (b_animalId b) e) as [<-|_]; [|exact IH].
  now apply string_lt_irrefl in Hb.
Qed.

(** Blocks of one animal are contiguous in the output, so neighbours in
    the per-animal view are neighbours in the output. *)
Lemma ofAnimal_distinct e blocks :
  StronglySorted blockLe blocks -> Sorted distinct blocks ->
  Sorted (fun b1 b2 => b_state b1 <> b_state b2) (ofAnimal e blocks).
Proof.
  intros Hs. induction Hs as [|b l Hs IH Hb]; intros Hd; simpl.
  - constructor.
  - apply Sorted_inv in Hd as [Hd Hhd].
    destruct (String.eqb_spec (b_animalId b) e) as [Eb|_]; [|now apply IH].
    constructor; [now apply IH|].
    destruct l as [|c l']; simpl; [constructor|].
    destruct (String.eqb_spec (b_animalId c) e) as [Ec|Nc].
    + constructor. apply HdRel_inv in Hhd as [H|H]; [exact H|congruence].
    + fold (ofAnimal e l'). rewrite ofAnimal_empty; [constructor|].
      apply Forall_cons_iff in Hb as [Hbc _].
      assert (Hlt : String_as_OT.lt e (b_animalId c)).
      { destruct Hbc as [H|[H _]]; [now rewrite <- Eb|congruence]. }
      apply StronglySorted_inv in Hs as [_ Hc].
      eapply Forall_impl; [|exact Hc]. intros d [H|[H _]].
      * now apply String_as_OT.lt_trans with (b_animalId c).
      * now rewrite <- H.
Qed.

Lemma ofAnimal_ordered e blocks :
  StronglySorted blockLe blocks ->
  StronglySorted (fun b1 b2 => b_end b1 <= b_start b2) (ofAnimal e blocks).
Proof.
  intros Hs. apply StronglySorted_weaken with (R := blockLe).
  - intros a b Ha Hb [H|[_ H]]; [|exact H].
    apply filter_In in Ha as [_ Ha]. apply filter_In in Hb as [_ Hb].
    apply String.eqb_eq in Ha, Hb. rewrite Ha, Hb in H.
    now apply string_lt_irrefl in H.
  - now apply StronglySorted_filter.
Qed.

Lemma blocksOf_sorted (dataPoints : list Point) :
  StronglySorted blockLe (blocksOf dataPoints)
  /\ Forall (fun b => b_start b <= b_end b) (blocksOf dataPoints)
  /\ Sorted distinct (blocksOf dataPoints).
Proof.
  unfold blocksOf. pose proof (sortedData_sorted dataPoints) as Hs.
  destruct (sortedData dataPoints) as [|first rest].
  - repeat constructor.
  - apply StronglySorted_inv in Hs as [Hs Hf].
    apply loop_sorted; [simpl; lia|exact Hf|exact Hs].
Qed.
End GanttLoop.

(** *** GanttChart: the segmentation guarantees *)

(** C3.  For every array of samples, the blocks of any one animal come out
    in timestamp order (each block ends no later than every later block of
    that animal starts, and no block ends before it starts), two consecutive
    blocks of one animal never have the same state, and the samples are
    partitioned into runs, one per block and in block order, whose
    concatenation is a rearrangement of the input: no sample is lost or
    duplicated.  Each block has the animal and state of all samples of its
    run, contains their timestamps, starts at the first and ends at the
    last of them. *)
Theorem segmentation_coverage_maximality (dataPoints : list Gantt.Point) :
  let blocks := Gantt.blocksOf dataPoints in
  (forall e, StronglySorted
               (fun b1 b2 => (Gantt.b_end b1 <= Gantt.b_start b2)%Z)
               (Gantt.ofAnimal e blocks))
  /\ Forall (fun b => (Gantt.b_start b <= Gantt.b_end b)%Z) blocks
  /\ (forall e, Sorted (fun b1 b2 => Gantt.b_state b1 <> Gantt.b_state b2)
                       (Gantt.ofAnimal e blocks))
  /\ exists runs, Forall2 Gantt.covers blocks runs
                  /\ concat runs = Gantt.sortedData dataPoints
                  /\ Permutation (concat runs) dataPoints.
Proof.
  intros blocks.
  destruct (blocksOf_sorted dataPoints) as (S1 & S2 & S3). fold blocks in S1, S2, S3.
  split; [intros e; now apply ofAnimal_ordered|].
  split; [exact S2|].
  split; [intros e; now apply ofAnimal_distinct|].
  subst blocks. unfold Gantt.blocksOf.
  pose proof (sort_perm Gantt.compareFn dataPoints) as Hp.
  fold (Gantt.sortedData dataPoints) in Hp.
  destruct (Gantt.sortedData dataPoints) as [|first rest] eqn:E.
  - exists []. repeat split; [constructor|exact Hp].
  - pose proof (sortedData_sorted dataPoints) as Hs. rewrite E in Hs.
    apply StronglySorted_inv in Hs as [Hs Hf].
    destruct (loop_covers rest (Gantt.openBlock first) [first])
      as (runs & Hcat & Hall); [|exact Hf|exact Hs|].
    { split; [|split; reflexivity].
      constructor; [simpl; repeat split; lia|constructor]. }
    exists runs. rewrite Hcat. simpl. auto.
Qed.

(** C4.  The worked example: one animal [A] with states 0,0,1,1,1,0 at
    timestamps 0,10,...,50 yields the three blocks (0, 0..10), (1, 20..40)
    and (0, 50..50), in that order. *)
Theorem segmentation_example :
  Gantt.blocksOf
    [ Gantt.mkPoint 0 0 "A"; Gantt.mkPoint 10 0 "A"; Gantt.mkPoint 20 1 "A";
      Gantt.mkPoint 30 1 "A"; Gantt.mkPoint 40 1 "A"; Gantt.mkPoint 50 0 "A" ]
  = [ Gantt.mkBlock 0 0 10 "A"; Gantt.mkBlock 1 20 40 "A";
      Gantt.mkBlock 0 50 50 "A" ].
Proof. vm_compute. reflexivity. Qed.

(** *** useLiveSimulation: the REPLAY clock *)

Section ReplayClock.
Import Sim.
Local Open Scope Q_scope.

Lemma msPerTick_eq (replaySpeed : Q) :
  msPerTick replaySpeed == replaySpeed * 6000.
Proof. unfold msPerTick. field. Qed.

Lemma replayStep_keep replaySpeed startTime endTime now :
  now + msPerTick replaySpeed < inject_Z endTime ->
  replayStep replaySpeed startTime endTime now = now + msPerTick replaySpeed.
Proof.
  intros H. unfold replayStep.
  destruct (Qle_bool _ _) eqn:E; [|reflexivity].
  apply Qle_bool_iff in E. lra.
Qed.

Lemma replayStep_wrap replaySpeed startTime endTime now :
  inject_Z endTime <= now + msPerTick replaySpeed ->
  replayStep replaySpeed startTime endTime now = inject_Z startTime.
Proof.
  intros H. unfold replayStep.
  destruct (Qle_bool _ _) eqn:E; [reflexivity|].
  apply Qle_bool_iff in H. congruence.
Qed.

Lemma replayStep_cases replaySpeed startTime endTime now :
  (now + msPerTick replaySpeed < inject_Z endTime
   /\ replayStep replaySpeed startTime endTime now
      = now + msPerTick replaySpeed)
  \/ (inject_Z endTime <= now + msPerTick replaySpeed
      /\ replayStep replaySpeed startTime endTime now = inject_Z startTime).
Proof.
  destruct (Qlt_le_dec (now + msPerTick replaySpeed) (inject_Z endTime)).
  - left. split; [assumption|now apply replayStep_keep].
  - right. split; [assumption|now apply replayStep_wrap].
Qed.

Lemma replayTicks_succ replaySpeed startTime endTime n now :
  replayTicks replaySpeed startTime endTime (S n) now
  = replayStep replaySpeed startTime endTime
      (replayTicks replaySpeed startTime endTime n now).
Proof. reflexivity. Qed.

(** In REPLAY mode a tick draws no random number, stores the advanced time
    and publishes the window cut at that time. *)
Lemma tick_replay random fl replaySpeed fullData tz realNow startTime
      endTime now i :
  tick random fl false replaySpeed fullData tz realNow startTime endTime now i
  = (let now' := replayStep replaySpeed startTime endTime now in
     (now', {| currentTime := toDate now';
               progress := progressOf startTime endTime now';
               currentData := slice fullData now' |}), i).
Proof. reflexivity. Qed.

Lemma replay_in_range replaySpeed startTime endTime n :
  0 < replaySpeed -> (startTime < endTime)%Z ->
  inject_Z startTime
  <= replayTicks replaySpeed startTime endTime n (inject_Z startTime)
  /\ replayTicks replaySpeed startTime endTime n (inject_Z startTime)
     < inject_Z endTime.
Proof.
  intros Hs Hlt. rewrite Zlt_Qlt in Hlt.
  pose proof (msPerTick_eq replaySpeed) as Hm.
  induction n as [|n [IH1 IH2]].
  - simpl. lra.
  - rewrite replayTicks_succ.
    destruct (replayStep_cases replaySpeed startTime endTime
                (replayTicks replaySpeed startTime endTime n
                   (inject_Z startTime))) as [[H ->]|[H ->]]; lra.
Qed.
End ReplayClock.

(** C1 as the code has it.  A tick advances the clock by
    [replaySpeed / 10] minutes.  With the dataset running from [T0] to
    [T0 + 10min], a speed of 30 (3 minutes per tick) and the clock at [T0],
    three ticks lead to [T0 + 9min] and the fourth, which would reach
    [T0 + 12min], puts the clock back to the start [T0]: the overshoot is
    dropped, not carried over. *)
Theorem replay_wraparound_restarts (T0 : Z) :
  (forall replaySpeed,
      Sim.msPerTick replaySpeed == (replaySpeed / 10) * 60000)
  /\ Sim.msPerTick 30 == 3 * 60000
  /\ Sim.replayTicks 30 T0 (T0 + 600000) 3 (inject_Z T0)
     == inject_Z T0 + 9 * 60000
  /\ Sim.replayTicks 30 T0 (T0 + 600000) 4 (inject_Z T0) == inject_Z T0.
Proof.
  assert (Hm : Sim.msPerTick 30 == 180000) by reflexivity.
  assert (He : inject_Z (T0 + 600000) == inject_Z T0 + 600000)
    by (rewrite inject_Z_plus; reflexivity).
  split; [intros; unfold Sim.msPerTick; field|].
  split; [exact Hm|].
  assert (K : forall now,
             now + 180000 < inject_Z T0 + 600000 ->
             now + Sim.msPerTick 30 < inject_Z (T0 + 600000)).
  { intros now H. rewrite Hm, He. exact H. }
  assert (H3 : Sim.replayTicks 30 T0 (T0 + 600000) 3 (inject_Z T0)
               == inject_Z T0 + 9 * 60000).
  { pose (m := Sim.msPerTick 30). fold m in Hm, K.
    unfold Sim.replayTicks. simpl Nat.iter.
    rewrite (replayStep_keep 30 T0 (T0 + 600000) (inject_Z T0))
      by (apply K; lra).
    fold m.
    rewrite (replayStep_keep 30 T0 (T0 + 600000) (inject_Z T0 + m))
      by (apply K; rewrite Hm; lra).
    fold m.
    rewrite (replayStep_keep 30 T0 (T0 + 600000) (inject_Z T0 + m + m))
      by (apply K; rewrite Hm; lra).
    fold m. rewrite Hm. lra. }
  split; [exact H3|].
  rewrite replayTicks_succ. rewrite replayStep_wrap; [reflexivity|].
  rewrite H3, Hm, He. lra.
Qed.

(** C1 as stated fails: for the dataset from 2024-12-01T00:00Z to 00:10Z
    and 3 minutes per tick, the clock after four ticks is not at two
    minutes past the start (it is at the start). *)
Lemma replay_wraparound_not_modular :
  Sim.msPerTick 30 == 3 * 60000
  /\ ~ Sim.replayTicks 30 1733011200000 (1733011200000 + 600000) 4
         (inject_Z 1733011200000)
       == inject_Z (1733011200000 + 2 * 60000).
Proof.
  split; [reflexivity|]. intros H. vm_compute in H. discriminate H.
Qed.

(** C10.  With the start strictly before the end and a positive speed, the
    clock started at [datasetStart] satisfies
    [datasetStart <= virtualNow < datasetEnd] after any number of REPLAY
    ticks; hence the window published by a REPLAY tick never contains a
    row stamped exactly [datasetEnd]. *)
Theorem replay_range_invariant (replaySpeed : Q) (startTime endTime : Z)
        (fullData : list Sim.Row) (n : nat) :
  0 < replaySpeed -> (startTime < endTime)%Z ->
  let now :=
    Sim.replayTicks replaySpeed startTime endTime n (inject_Z startTime) in
  inject_Z startTime <= now /\ now < inject_Z endTime
  /\ (forall random fl tz realNow i d,
         Sim.timestamp d = endTime ->
         ~ In d (Sim.currentData
                   (snd (fst (Sim.tick random fl false replaySpeed fullData
                                       tz realNow startTime endTime now
                                       i))))).
Proof.
  intros Hs Hlt now.
  destruct (replay_in_range replaySpeed startTime endTime n Hs Hlt)
    as [H1 H2]. fold now in H1, H2.
  split; [exact H1|]. split; [exact H2|].
  intros random fl tz realNow i d Hd Hin.
  rewrite tick_replay in Hin. simpl in Hin.
  apply filter_In in Hin as [_ Hin]. apply Qle_bool_iff in Hin.
  rewrite Hd in Hin.
  destruct (replay_in_range replaySpeed startTime endTime (S n) Hs Hlt)
    as [_ H3].
  change (Sim.replayTicks replaySpeed startTime endTime (S n)
            (inject_Z startTime))
    with (Sim.replayStep replaySpeed startTime endTime now) in H3.
  lra.
Qed.

Lemma replay_range_invariant_witness :
  0 < 60 /\ (1733011200000 < 1733097600000)%Z
  /\ let now := Sim.replayTicks 60 1733011200000 1733097600000 5
                  (inject_Z 1733011200000) in
     inject_Z 1733011200000 <= now /\ now < inject_Z 1733097600000
     /\ (forall random fl tz realNow i d,
            Sim.timestamp d = 1733097600000%Z ->
            ~ In d (Sim.currentData
                      (snd (fst (Sim.tick random fl false 60
                                   [Sim.exampleRow 1733011200000;
                                    Sim.exampleRow 1733097600000]
                                   tz realNow 1733011200000 1733097600000
                                   now i))))).
Proof.
  split; [reflexivity|]. split; [reflexivity|].
  apply (replay_range_invariant 60 1733011200000 1733097600000
           [Sim.exampleRow 1733011200000; Sim.exampleRow 1733097600000] 5);
    reflexivity.
Defined.

(** *** useLiveSimulation: data preparation *)

Section Preparation.
Import Sim.
Local Open Scope Z_scope.

Lemma min_max_bounds (t : Z) (ts : list Z) (x : Z) :
  In x (t :: ts) -> Js.min_of t ts <= x <= Js.max_of t ts.
Proof.
  unfold Js.min_of, Js.max_of. induction ts as [|y ts IH]; simpl.
  - intros [->|[]]. lia.
  - intros [->|[->|H]].
    + specialize (IH (or_introl eq_refl)). lia.
    + lia.
    + specialize (IH (or_intror H)). lia.
Qed.

Lemma spanOf_bound (rows : list Row) (a b : Row) :
  In a rows -> In b rows -> timestamp b - timestamp a <= spanOf rows.
Proof.
  intros Ha Hb. unfold spanOf.
  apply (in_map timestamp) in Ha, Hb.
  destruct (map timestamp rows) as [|t ts]; [contradiction|].
  apply min_max_bounds in Ha, Hb. lia.
Qed.

Lemma byTimestamp_le (a b : Row) :
  byTimestamp a b <= 0 <-> timestamp a <= timestamp b.
Proof. unfold byTimestamp. lia. Qed.

Lemma sorted_by_timestamp (rows : list Row) :
  StronglySorted (fun a b => timestamp a <= timestamp b)
                 (Js.sort byTimestamp rows).
Proof.
  apply StronglySorted_weaken with (R := fun a b => byTimestamp a b <= 0).
  - intros a b _ _. apply byTimestamp_le.
  - apply sort_sorted; intros; unfold byTimestamp in *; lia.
Qed.

Lemma fullData_short (inputData : list Row) (historyHours : Z) :
  historyHours <= 24 ->
  fullData inputData historyHours = Js.sort byTimestamp inputData.
Proof.
  intros H. unfold fullData. destruct inputData; [reflexivity|].
  apply Z.leb_le in H. now rewrite H.
Qed.

Lemma fullData_long (inputData : list Row) (historyHours : Z) :
  24 < historyHours ->
  fullData inputData historyHours
  = map (fun d => withTimestamp d (timestamp d - 86400000))
        (Js.sort byTimestamp inputData)
    ++ Js.sort byTimestamp inputData.
Proof.
  intros H. unfold fullData. destruct inputData; [reflexivity|].
  apply Z.leb_gt in H. now rewrite H.
Qed.

Lemma StronglySorted_app {A} (R : A -> A -> Prop) (l1 l2 : list A) :
  StronglySorted R l1 -> StronglySorted R l2 ->
  (forall a b, In a l1 -> In b l2 -> R a b) ->
  StronglySorted R (l1 ++ l2).
Proof.
  intros H1 H2 H. induction H1 as [|x l Hs IH Hx]; simpl; [exact H2|].
  constructor.
  - apply IH. intros a b Ha. apply H. now right.
  - apply Forall_app. split; [exact Hx|].
    apply Forall_forall. intros b Hb. apply H; [now left|exact Hb].
Qed.

Lemma StronglySorted_map {A B} (R : B -> B -> Prop) (f : A -> B) l :
  StronglySorted (fun a b => R (f a) (f b)) l -> StronglySorted R (map f l).
Proof.
  induction 1 as [|x l Hs IH Hx]; simpl; constructor; [exact IH|].
  apply Forall_map. exact Hx.
Qed.
End Preparation.

(** C5.  When the rows span exactly 24 hours, asking for 48 hours doubles
    the dataset: [2N] rows, the last [N] being the sorted input, the first
    [N] being the same rows in the same order with the timestamp set 24
    hours earlier, and the whole ascending in time. *)
Theorem horizon_doubling (inputData : list Sim.Row) :
  Sim.spanOf inputData = (24 * 60 * 60 * 1000)%Z ->
  let N := List.length inputData in
  let out := Sim.fullData inputData 48 in
  List.length out = (2 * N)%nat
  /\ Permutation (skipn N out) inputData
  /\ firstn N out
     = map (fun d => Sim.withTimestamp d (Sim.timestamp d - 86400000)%Z)
           (skipn N out)
  /\ map Sim.timestamp (firstn N out)
     = map (fun t => (t - 24 * 60 * 60 * 1000)%Z)
           (map Sim.timestamp (skipn N out))
  /\ StronglySorted (fun a b => (Sim.timestamp a <= Sim.timestamp b)%Z) out.
Proof.
  intros Hspan N out. subst out.
  rewrite fullData_long by lia.
  set (sorted := Js.sort Sim.byTimestamp inputData).
  set (shift := fun d => Sim.withTimestamp d (Sim.timestamp d - 86400000)%Z).
  assert (HN : List.length sorted = N) by apply sort_length.
  assert (HNs : List.length (map shift sorted) = N)
    by now rewrite length_map.
  assert (Hsk : skipn N (map shift sorted ++ sorted) = sorted).
  { rewrite <- HNs, skipn_app, skipn_all, Nat.sub_diag. reflexivity. }
  assert (Hfi : firstn N (map shift sorted ++ sorted) = map shift sorted).
  { rewrite <- HNs, firstn_app, firstn_all, Nat.sub_diag. simpl.
    apply app_nil_r. }
  rewrite Hsk, Hfi.
  split; [rewrite length_app, HNs, HN; lia|].
  split; [apply sort_perm|].
  split; [reflexivity|].
  split; [rewrite !map_map; reflexivity|].
  apply StronglySorted_app.
  - apply StronglySorted_map.
    apply StronglySorted_weaken
      with (R := fun a b => (Sim.timestamp a <= Sim.timestamp b)%Z).
    + intros a b _ _ H. simpl. lia.
    + apply sorted_by_timestamp.
  - apply sorted_by_timestamp.
  - intros a b Ha Hb. apply in_map_iff in Ha as (a' & <- & Ha).
    simpl.
    assert (Pa : In a' inputData)
      by (eapply Permutation_in; [apply sort_perm|exact Ha]).
    assert (Pb : In b inputData)
      by (eapply Permutation_in; [apply sort_perm|exact Hb]).
    pose proof (spanOf_bound inputData b a' Pb Pa). lia.
Qed.

Lemma horizon_doubling_witness :
  Sim.spanOf [Sim.exampleRow 1733097600000; Sim.exampleRow 1733054400000;
              Sim.exampleRow 1733011200000]
  = (24 * 60 * 60 * 1000)%Z
  /\ List.length
       (Sim.fullData [Sim.exampleRow 1733097600000;
                      Sim.exampleRow 1733054400000;
                      Sim.exampleRow 1733011200000] 48) = 6%nat.
Proof.
  split; [reflexivity|].
  apply (horizon_doubling [Sim.exampleRow 1733097600000;
                           Sim.exampleRow 1733054400000;
                           Sim.exampleRow 1733011200000]).
  reflexivity.
Defined.

(** C6 as the code has it.  The threshold is the constant 24, not the span
    of the data: for a non-empty input and [historyHours <= 24] the result
    is the input sorted by timestamp, with the same rows and the same
    number of them, ascending in time, rows of equal timestamp keeping
    their input order. *)
Theorem normalize_within_24h (inputData : list Sim.Row) (historyHours : Z) :
  inputData <> [] -> (historyHours <= 24)%Z ->
  let out := Sim.fullData inputData historyHours in
  out = Js.sort Sim.byTimestamp inputData
  /\ Permutation out inputData
  /\ List.length out = List.length inputData
  /\ StronglySorted (fun a b => (Sim.timestamp a <= Sim.timestamp b)%Z) out
  /\ (forall t,
         filter (fun d => (Sim.timestamp d =? t)%Z) out
         = filter (fun d => (Sim.timestamp d =? t)%Z) inputData).
Proof.
  intros _ Hh out. subst out. rewrite fullData_short by exact Hh.
  split; [reflexivity|].
  split; [apply sort_perm|].
  split; [apply sort_length|].
  split; [apply sorted_by_timestamp|].
  intros t. apply sort_stable. intros a b Ha Hb.
  apply Z.eqb_eq in Ha, Hb. unfold Sim.byTimestamp. lia.
Qed.

Lemma normalize_within_24h_witness :
  [Sim.exampleRow 1733054400000; Sim.exampleRow 1733011200000] <> []
  /\ (24 <= 24)%Z
  /\ Sim.fullData [Sim.exampleRow 1733054400000;
                   Sim.exampleRow 1733011200000] 24
     = Js.sort Sim.byTimestamp [Sim.exampleRow 1733054400000;
                                Sim.exampleRow 1733011200000].
Proof.
  split; [discriminate|]. split; [lia|].
  apply (normalize_within_24h [Sim.exampleRow 1733054400000;
                               Sim.exampleRow 1733011200000] 24);
    [discriminate|lia].
Defined.

(** C6 as stated fails: two rows 72 hours apart and a horizon of 48 hours,
    which is below the span, do not come back as the sorted input; the
    result has four rows. *)
Lemma normalize_below_span_counterexample :
  let inputData := [Sim.exampleRow 1733011200000;
                    Sim.exampleRow (1733011200000 + 72 * 3600000)] in
  (48 * 3600000 <= Sim.spanOf inputData)%Z
  /\ Sim.fullData inputData 48 <> Js.sort Sim.byTimestamp inputData
  /\ List.length (Sim.fullData inputData 48) <> List.length inputData.
Proof.
  split; [vm_compute; discriminate|].
  split; [intros H; apply (f_equal (@List.length _)) in H|]; vm_compute;
    [vm_compute in H|]; discriminate.
Qed.

(** C7 as the code has it.  For the empty input and any horizon the
    preparation returns the empty dataset and raises nothing; the range
    effect then leaves the references as they are and the timer effect
    returns before [setInterval], so no tick ever runs. *)
Theorem empty_input_returns_empty (historyHours : Z) (r : Sim.Refs) :
  Sim.fullDataMemo [] historyHours = Js.Normal []
  /\ Sim.initRange (Sim.fullData [] historyHours) r = r
  /\ Sim.timerStarts (Sim.fullData [] historyHours) r = false.
Proof. repeat split. Qed.

(** C7 as stated fails: preparing the empty input with a 48-hour horizon
    does not end in an [InvalidInputError]. *)
Lemma empty_input_no_error :
  Sim.fullDataMemo [] 48 <> Js.Throw "InvalidInputError".
Proof. discriminate. Qed.

(** *** Rounding to doubles *)

Section RoundingFacts.
Local Open Scope Q_scope.

Lemma nearestEven_close (q : Q) :
  Qabs (inject_Z (Js.nearestEven q) - q) <= 1 # 2.
Proof.
  unfold Js.nearestEven.
  pose proof (Qfloor_le q) as H1. pose proof (Qlt_floor q) as H2.
  rewrite inject_Z_plus in H2. change (inject_Z 1) with 1 in H2.
  set (f := Qfloor q) in *.
  assert (E1 : inject_Z (f + 1) == inject_Z f + 1)
    by (rewrite inject_Z_plus; reflexivity).
  apply Qabs_Qle_condition.
  destruct (Qcompare_spec (q - inject_Z f) (1 # 2)) as [H|H|H];
    [destruct (Z.even f)|..]; rewrite ?E1; split; lra.
Qed.

Lemma pow2_pos (e : Z) : 0 < 2 ^ e.
Proof. apply Qpower_0_lt. reflexivity. Qed.

Lemma pow2_log2 (n : Z) :
  (0 < n)%Z ->
  2 ^ Z.log2 n <= inject_Z n /\ inject_Z n < 2 ^ (Z.log2 n + 1).
Proof.
  intros Hn. destruct (Z.log2_spec n Hn) as [H1 H2].
  pose proof (Z.log2_nonneg n) as H0.
  change 2 with (inject_Z 2).
  rewrite <- !Zpower_Qpower by lia.
  rewrite <- Zle_Qle, <- Zlt_Qlt. rewrite <- Z.add_1_r in H2. lia.
Qed.

Lemma floorLog2_le (x : Q) : 0 < x -> 2 ^ Js.floorLog2 x <= x.
Proof.
  intros Hx. unfold Js.floorLog2.
  destruct (Qle_bool _ x) eqn:E; [now apply Qle_bool_iff|]. clear E.
  destruct x as [n d]. cbn [Qnum Qden].
  assert (Hn : (0 < n)%Z).
  { unfold Qlt in Hx. cbn in Hx. lia. }
  destruct (pow2_log2 n Hn) as [Ha _].
  destruct (pow2_log2 (Zpos d) eq_refl) as [_ Hb].
  set (a := Z.log2 n) in *. set (b := Z.log2 (Zpos d)) in *.
  replace (a - b - 1)%Z with (a - (b + 1))%Z by lia.
  rewrite Qpower_minus by discriminate.
  pose proof (pow2_pos a) as Pa. pose proof (pow2_pos (b + 1)) as Pb.
  rewrite (Qmake_Qdiv n d).
  assert (Hd : 0 < inject_Z (Zpos d)) by reflexivity.
  set (A := 2 ^ a) in *. set (B := 2 ^ (b + 1)) in *.
  set (N := inject_Z n) in *. set (D := inject_Z (Zpos d)) in *.
  clearbody A B N D.
  apply Qle_shift_div_r; [exact Pb|].
  assert (E : N / D * B == N * B / D) by (field; lra). rewrite E.
  apply Qle_shift_div_l; [exact Hd|]. nra.
Qed.

Lemma roundDouble_rounds : Js.rounds Js.roundDouble.
Proof.
  intros x. unfold Js.roundDouble.
  destruct (Qeq_bool x 0) eqn:E.
  - apply Qeq_bool_iff in E. rewrite E. vm_compute. discriminate.
  - apply Qeq_bool_neq in E.
    assert (Hx : 0 < Qabs x).
    { pose proof (Qabs_nonneg x) as H0.
      destruct (Qle_lt_or_eq _ _ H0) as [H|H]; [exact H|].
      exfalso. apply E. symmetry in H.
      pose proof (Qabs_Qle_condition x 0) as [HC _].
      destruct HC as [C1 C2]; [rewrite H; apply Qle_refl|]. lra. }
    pose proof (floorLog2_le _ Hx) as HL.
    set (L := Js.floorLog2 (Qabs x)) in *.
    set (e := Z.max (L - 52) (-1074)).
    pose proof (pow2_pos e) as HP.
    pose proof (nearestEven_close (x / 2 ^ e)) as HC.
    assert (Eq : inject_Z (Js.nearestEven (x / 2 ^ e)) * 2 ^ e - x
                 == (inject_Z (Js.nearestEven (x / 2 ^ e)) - x / 2 ^ e) * 2 ^ e)
      by (field; lra).
    rewrite Eq, Qabs_Qmult, (Qabs_pos (2 ^ e)) by lra.
    apply Qle_trans with ((1 # 2) * 2 ^ e);
      [apply Qmult_le_compat_r; [exact HC|lra]|].
    clear Eq HC.
    assert (Hu : 0 <= Js.ulpHalf * Qabs x)
      by (apply Qmult_le_0_compat; [discriminate|lra]).
    assert (Ht : 0 <= Js.tiny) by discriminate.
    destruct (Z.max_spec (L - 52) (-1074)) as [[_ Hm]|[_ Hm]];
      fold e in Hm; rewrite Hm.
    + assert (Et : (1 # 2) * 2 ^ (-1074) == Js.tiny) by reflexivity.
      rewrite Et. lra.
    + assert (Ep : 2 ^ (L - 52) == 2 ^ L * (1 # 4503599627370496)).
      { unfold Zminus. rewrite Qpower_plus by discriminate.
        apply Qmult_comp; reflexivity. }
      rewrite Ep. unfold Js.ulpHalf.
      set (X := Qabs x) in *. set (P := 2 ^ L) in *. clearbody X P. lra.
Qed.

(** The literals of the noise, as doubles. *)
Lemma literal_doubles :
  Js.roundDouble 0.01 == Js.d0_01 /\ Js.roundDouble 0.1 == Js.d0_1
  /\ Js.roundDouble 0.0001 == Js.d0_0001
  /\ Js.roundDouble 0.5 == 0.5 /\ Js.roundDouble 2 == 2.
Proof. repeat split; vm_compute; reflexivity. Qed.
End RoundingFacts.

(** *** useLiveSimulation: sensor noise *)

Section NoiseFacts.
Import Sim.
Local Open Scope Q_scope.

Variable random : nat -> Q.
Variable fl : Q -> Q.
Hypothesis random_range : forall k, 0 <= random k /\ random k < 1.
Hypothesis fl_rounds : Js.rounds fl.

Lemma tiny_small : 0 <= Js.tiny /\ Js.tiny <= 1 # 1152921504606846976.
Proof. split; vm_compute; discriminate. Qed.

Lemma round_error (x : Q) :
  - (Js.ulpHalf * Qabs x + Js.tiny) <= fl x - x
  /\ fl x - x <= Js.ulpHalf * Qabs x + Js.tiny.
Proof. apply Qabs_Qle_condition, fl_rounds. Qed.

Lemma abs_bounds (x : Q) : 0 <= Qabs x /\ - Qabs x <= x /\ x <= Qabs x.
Proof.
  split; [apply Qabs_nonneg|]. apply Qabs_Qle_condition, Qle_refl.
Qed.

(** The rounded jitter of a field [v] ends within [reach w] of [v], up to
    the rounding of the sum, which is relative to [v]. *)
Lemma jitter_reach (w v r : Q) :
  0 <= w -> 0 <= r -> r < 1 ->
  Qabs (fl (v + fl (fl (r - 0.5) * w)) - v)
  <= reach w + Js.ulpHalf * Qabs v.
Proof.
  intros Hw Hr0 Hr1. unfold reach.
  destruct tiny_small as [He _].
  assert (HX : Qabs (r - 0.5) <= 1 # 2)
    by (apply Qabs_Qle_condition; split; lra).
  destruct (round_error (r - 0.5)) as [R1 R1'].
  destruct (abs_bounds (r - 0.5)) as (X0 & X1 & X2).
  assert (HA : Qabs (fl (r - 0.5))
               <= (1 # 2) + Js.ulpHalf * (1 # 2) + Js.tiny).
  { apply Qabs_Qle_condition. unfold Js.ulpHalf in *.
    set (eta := Js.tiny) in *. clearbody eta.
    set (X := Qabs (r - 0.5)) in *. clearbody X. split; lra. }
  assert (HK : Qabs (fl (r - 0.5) * w)
               <= ((1 # 2) + Js.ulpHalf * (1 # 2) + Js.tiny) * w).
  { rewrite Qabs_Qmult, (Qabs_pos w Hw).
    now apply Qmult_le_compat_r. }
  clear HA HX R1 R1' X0 X1 X2.
  set (K := ((1 # 2) + Js.ulpHalf * (1 # 2) + Js.tiny) * w) in *.
  clearbody K.
  set (m := fl (r - 0.5) * w) in *. clearbody m.
  destruct (round_error m) as [R2 R2'].
  destruct (abs_bounds m) as (Y0 & Y1 & Y2).
  destruct (round_error (v + fl m)) as [R3 R3'].
  pose proof (Qabs_triangle v (fl m)) as T.
  destruct (abs_bounds (fl m)) as (N0 & N1 & N2).
  assert (HN : Qabs (fl m) <= K + Js.ulpHalf * K + Js.tiny).
  { apply Qabs_Qle_condition. unfold Js.ulpHalf in *.
    set (eta := Js.tiny) in *. clearbody eta.
    set (Y := Qabs m) in *. clearbody Y. split; lra. }
  apply Qabs_Qle_condition. unfold Js.ulpHalf in *.
  set (eta := Js.tiny) in *. clearbody eta.
  set (S := Qabs (v + fl m)) in *. clearbody S.
  set (N := Qabs (fl m)) in *. clearbody N.
  set (V := Qabs v) in *. clearbody V.
  set (y := fl (v + fl m)) in *. clearbody y.
  set (n := fl m) in *. clearbody n.
  split; lra.
Qed.

Lemma allowance_covers (w bound v d : Q) :
  reach w <= bound + (1 # 1125899906842624) ->
  d <= reach w + Js.ulpHalf * Qabs v ->
  d <= bound + allowance v.
Proof.
  intros Hw Hd. unfold allowance. unfold Js.ulpHalf in Hd.
  pose proof (Qabs_nonneg v) as HV.
  set (V := Qabs v) in *. clearbody V.
  set (R := reach w) in *. clearbody R. lra.
Qed.

Lemma within_refl (bound v : Q) : 0 <= bound -> within bound v v.
Proof.
  intros Hb. unfold within, allowance. pose proof (Qabs_nonneg v) as HV.
  set (V := Qabs v) in *. clearbody V.
  apply Qabs_Qle_condition. split; lra.
Qed.

Lemma clamp01_share (x : Q) : share (clamp01 x).
Proof.
  unfold share, clamp01.
  destruct (Q.max_spec 0 (Qmin 1 x)) as [[H ->]|[H ->]];
    destruct (Q.min_spec 1 x) as [[H' E]|[H' E]]; rewrite ?E in *; lra.
Qed.

(** Clamping moves a value towards every share. *)
Lemma clamp01_nearer (x y b : Q) :
  share x -> Qabs (y - x) <= b -> Qabs (clamp01 y - x) <= b.
Proof.
  unfold share, clamp01. intros [H0 H1] Hn.
  apply Qabs_Qle_condition in Hn. apply Qabs_Qle_condition.
  destruct (Q.max_spec 0 (Qmin 1 y)) as [[H ->]|[H ->]];
    destruct (Q.min_spec 1 y) as [[H' E]|[H' E]]; rewrite ?E in *; lra.
Qed.

(** The double that [0.01] denotes exceeds 1/100: a draw of 0 gives a noise
    above 0.005 in magnitude before anything is rounded, so the distances
    are bounded up to the allowance and not exactly. *)
Lemma half_width_exceeds_bound : 0.005 < (1 # 2) * Js.d0_01.
Proof. reflexivity. Qed.

Lemma reach_share : reach Js.d0_01 <= 0.005 + (1 # 1125899906842624).
Proof. vm_compute. discriminate. Qed.

Lemma reach_temp : reach Js.d0_1 <= 0.05 + (1 # 1125899906842624).
Proof. vm_compute. discriminate. Qed.

Lemma reach_activity : reach 2 <= 1 + (1 # 1125899906842624).
Proof. vm_compute. discriminate. Qed.

Lemma reach_heat : reach 0.5 <= 0.25 + (1 # 1125899906842624).
Proof. vm_compute. discriminate. Qed.

Lemma reach_gps : reach Js.d0_0001 <= 0.00005 + (1 # 1125899906842624).
Proof. vm_compute. discriminate. Qed.

Lemma bind_noise {B} (k : Q -> Rand B) (i : nat) :
  bind (noise random fl) k i
  = k (fl (fl (random i - 0.5) * Js.d0_01)) (S i).
Proof. reflexivity. Qed.

Lemma share_within (x : Q) (i : nat) :
  share x ->
  within 0.005 x (clamp01 (fl (x + fl (fl (random i - 0.5) * Js.d0_01)))).
Proof.
  intros Hx. unfold within. apply clamp01_nearer; [exact Hx|].
  destruct (random_range i).
  apply (allowance_covers Js.d0_01); [apply reach_share|].
  apply jitter_reach; [discriminate|assumption..].
Qed.

Lemma jitter_within (width bound : Q) (f : option Q) (i : nat) :
  0 <= width -> 0 <= bound ->
  reach width <= bound + (1 # 1125899906842624) ->
  exists y j, jitter random fl width f i = (y, j) /\ withinOpt bound f y.
Proof.
  intros Hw Hb Hr. unfold jitter. destruct (Js.truthyQ f) eqn:E.
  - destruct f as [v|]; [|discriminate].
    eexists _, _. split; [reflexivity|]. cbn [option_map withinOpt].
    unfold within. destruct (random_range i).
    apply (allowance_covers width); [exact Hr|].
    now apply jitter_reach.
  - eexists _, _. split; [reflexivity|].
    destruct f; cbn [withinOpt]; [|exact I]. now apply within_refl.
Qed.

Lemma perturb_bounded (lastPoint : Row) (i : nat) :
  share (pct_lying lastPoint) -> share (pct_standing lastPoint) ->
  share (pct_walking lastPoint) -> share (pct_eating lastPoint) ->
  noiseBounded lastPoint (fst (perturb random fl lastPoint i)).
Proof.
  intros S1 S2 S3 S4. unfold perturb.
  rewrite !bind_noise.
  unfold bind at 1.
  destruct (jitter_within Js.d0_1 0.05 (neck_temp_c lastPoint)
              (S (S (S (S i)))))
    as (temp & j1 & -> & B1); [discriminate|discriminate|apply reach_temp|].
  unfold bind at 1.
  destruct (jitter_within 2 1 (activity_index lastPoint) j1)
    as (act & j2 & -> & B2);
    [discriminate|discriminate|apply reach_activity|].
  unfold bind at 1.
  destruct (jitter_within 0.5 0.25 (heat_index lastPoint) j2)
    as (heat & j3 & -> & B3); [discriminate|discriminate|apply reach_heat|].
  unfold bind at 1.
  destruct (jitter_within Js.d0_0001 0.00005 (gps_lat lastPoint) j3)
    as (lat & j4 & -> & B4); [discriminate|discriminate|apply reach_gps|].
  unfold bind at 1.
  destruct (jitter_within Js.d0_0001 0.00005 (gps_long lastPoint) j4)
    as (long & j5 & -> & B5); [discriminate|discriminate|apply reach_gps|].
  unfold ret, noiseBounded. cbn [fst pct_lying pct_standing pct_walking
    pct_eating neck_temp_c activity_index heat_index gps_lat gps_long].
  repeat split; try apply clamp01_share; try (apply share_within; assumption);
    assumption.
Qed.
End NoiseFacts.

Section NoiseTick.
Import Sim.
Local Open Scope Q_scope.

Variable random : nat -> Q.
Variable fl : Q -> Q.

Lemma addNoise_last (front : list Row) (lastPoint : Row) (i : nat) :
  fst (addNoise random fl (front ++ [lastPoint]) i)
  = front ++ [fst (perturb random fl lastPoint i)].
Proof.
  unfold addNoise. rewrite rev_app_distr. simpl.
  unfold bind. destruct (perturb random fl lastPoint i) as [p j]. simpl.
  now rewrite removelast_last.
Qed.

Lemma tick_live replaySpeed fullData tz realNow startTime endTime now i :
  currentData
    (snd (fst (tick random fl true replaySpeed fullData tz realNow
                    startTime endTime now i)))
  = fst (addNoise random fl
           (slice fullData
              (advance true replaySpeed tz realNow startTime endTime now))
           i).
Proof.
  unfold tick. unfold bind. cbn [andb].
  destruct (slice fullData _) as [|d sliced] eqn:E; [reflexivity|].
  cbn [List.length Nat.ltb Nat.leb].
  destruct (addNoise random fl _ i) as [sliced' j]. reflexivity.
Qed.
End NoiseTick.

(** C8, with what it leaves out.  Whatever [Math.random] returns (values
    in [0,1)) and however the doubles round, a LIVE tick on a non-empty
    window replaces the last row, whose four shares are in [0,1], by a row
    whose shares are again in [0,1] and within 0.005 of the originals, and
    whose temperature, activity index, heat index and coordinates are
    within 0.05, 1, 0.25 and 0.00005 of the originals; each distance is
    up to the rounding allowance 2^-50 * (1 + |original|). *)
Theorem noise_boundedness (random : nat -> Q) (fl : Q -> Q)
        (replaySpeed : Q) (fullData : list Sim.Row) (tz : Js.Zone)
        (realNow startTime endTime : Z)
        (now : Q) (i : nat) (front : list Sim.Row) (lastPoint : Sim.Row) :
  (forall k, 0 <= random k /\ random k < 1) ->
  Js.rounds fl ->
  Sim.slice fullData
    (Sim.advance true replaySpeed tz realNow startTime endTime now)
  = front ++ [lastPoint] ->
  Sim.share (Sim.pct_lying lastPoint) ->
  Sim.share (Sim.pct_standing lastPoint) ->
  Sim.share (Sim.pct_walking lastPoint) ->
  Sim.share (Sim.pct_eating lastPoint) ->
  exists p,
    Sim.currentData
      (snd (fst (Sim.tick random fl true replaySpeed fullData tz realNow
                          startTime endTime now i)))
    = front ++ [p]
    /\ Sim.noiseBounded lastPoint p.
Proof.
  intros Hr Hfl Hw S1 S2 S3 S4.
  exists (fst (Sim.perturb random fl lastPoint i)). split.
  - rewrite tick_live, Hw. apply addNoise_last.
  - now apply perturb_bounded.
Qed.

Lemma noise_boundedness_witness :
  let random := fun _ : nat => 0.25 in
  let fullData := [Sim.exampleRow 1733011200000;
                   Sim.exampleRow 1733032800000;
                   Sim.exampleRow 1733097600000] in
  let lastPoint := Sim.exampleRow 1733032800000 in
  (forall k : nat, 0 <= random k /\ random k < 1)
  /\ Js.rounds Js.roundDouble
  /\ Sim.slice fullData
       (Sim.advance true 60 (Js.fixedZone 0) 1733486400000
                    1733011200000 1733097600000 (inject_Z 1733011200000))
     = [Sim.exampleRow 1733011200000] ++ [lastPoint]
  /\ exists p,
       Sim.currentData
         (snd (fst (Sim.tick random Js.roundDouble true 60 fullData
                             (Js.fixedZone 0) 1733486400000 1733011200000
                             1733097600000 (inject_Z 1733011200000) 0%nat)))
       = [Sim.exampleRow 1733011200000] ++ [p]
       /\ Sim.noiseBounded lastPoint p.
Proof.
  intros random fullData lastPoint.
  assert (Hr : forall k : nat, 0 <= random k /\ random k < 1)
    by (intros k; split; reflexivity || discriminate).
  split; [exact Hr|]. split; [exact roundDouble_rounds|].
  split; [reflexivity|].
  apply (noise_boundedness random Js.roundDouble 60 fullData
           (Js.fixedZone 0) 1733486400000 1733011200000 1733097600000
           (inject_Z 1733011200000) 0%nat
           [Sim.exampleRow 1733011200000] lastPoint Hr roundDouble_rounds);
    [reflexivity| | | |]; split; discriminate.
Defined.

(** C8 as stated fails, twice over.  Nothing keeps the shares of a row in
    [0,1] before the noise, and the clamp moves one that is outside by
    more than the bound: a LIVE tick on a window whose last row has
    [pct_lying = 2] publishes [pct_lying = 1].  And for a last row with
    [pct_lying = 0.5], a draw of 0 gives the noise [-0.5 * 0.01], which in
    doubles is below -0.005, and the rounded sum is the double next to
    0.495, at more than 0.005 from 0.5.  Both with [Math.random] returning
    0 and rounding to the nearest double. *)
Lemma noise_bounds_fail :
  let random := fun _ : nat => 0 in
  let outside :=
    Sim.mkRow 1733032800000 "COW_01" 2 0.3 0.1 0.1
              (Some 38.5) (Some 12) (Some 72) (Some 30.1) (Some (-97.7)) in
  let publish := fun lastPoint : Sim.Row =>
    Sim.currentData
      (snd (fst (Sim.tick random Js.roundDouble true 60
                   [Sim.exampleRow 1733011200000; lastPoint;
                    Sim.exampleRow 1733097600000]
                   (Js.fixedZone 0) 1733486400000 1733011200000
                   1733097600000 (inject_Z 1733011200000) 0%nat))) in
  (map Sim.timestamp (publish outside)
   = [1733011200000; 1733032800000]%Z
   /\ Forall2 Qeq (map Sim.pct_lying (publish outside)) [0.5; 1])
  /\ (Sim.pct_lying (Sim.exampleRow 1733032800000) = 0.5
      /\ map Sim.timestamp (publish (Sim.exampleRow 1733032800000))
         = [1733011200000; 1733032800000]%Z
      /\ Forall2 Qeq
           (map Sim.pct_lying (publish (Sim.exampleRow 1733032800000)))
           [0.5; 4458563631096791 # 9007199254740992]
      /\ 0.005 < 0.5 - (4458563631096791 # 9007199254740992)).
Proof. vm_compute. repeat split; repeat constructor. Qed.

(** *** useLiveSimulation: progress on a dataset of one row *)

Lemma progress_single_record_replay (t : Z) (replaySpeed : Q) :
  0 < replaySpeed ->
  Sim.progressOf t t (Sim.replayStep replaySpeed t t (inject_Z t)) = Js.NaN.
Proof.
  intros Hs. rewrite replayStep_wrap.
  - unfold Sim.progressOf, Js.div, Js.Qeqb.
    assert (E : Qeq_bool (inject_Z t - inject_Z t) 0 = true)
      by (apply Qeq_bool_iff; lra).
    now rewrite E.
  - pose proof (msPerTick_eq replaySpeed). lra.
Qed.

(** C9 on the code.  For a dataset of the single row stamped
    2024-12-01T00:00Z the range effect sets start and end to that instant,
    the timer starts, and a REPLAY tick at speed 60 publishes the progress
    [NaN]: the quotient [0 / 0] is computed unguarded and [Math.max] and
    [Math.min] pass [NaN] on. *)
Theorem progress_single_record_nan (random : nat -> Q) (fl : Q -> Q)
        (tz : Js.Zone) (realNow : Z) (i : nat) :
  let t := 1733011200000%Z in
  let data := Sim.fullData [Sim.exampleRow t] 24 in
  let refs := Sim.initRange data Sim.initialRefs in
  refs = Sim.mkRefs (Some (inject_Z t)) (Some t) (Some t)
  /\ Sim.timerStarts data refs = true
  /\ Sim.progress
       (snd (fst (Sim.tick random fl false 60 data tz realNow t t
                           (inject_Z t) i)))
     = Js.NaN.
Proof.
  intros t data refs. split; [reflexivity|]. split; [reflexivity|].
  rewrite tick_replay. cbn [snd fst Sim.progress].
  apply progress_single_record_replay. reflexivity.
Qed.

(** *** useLiveSimulation: the LIVE clock *)

Section LiveClock.
Import Sim.
Local Open Scope Z_scope.
Variable tz : Js.Zone.

Lemma steadyOffset_fixed (offset realNow endTime : Z) :
  steadyOffset (Js.fixedZone offset) realNow endTime.
Proof. split; reflexivity. Qed.

Lemma liveTarget_local (realNow endTime : Z) :
  steadyOffset tz realNow endTime ->
  Js.localTime tz (liveTarget tz realNow endTime)
  = Js.localDay tz endTime
    + Js.getHours tz realNow * 3600000 + Js.getMinutes tz realNow * 60000
    + Js.getSeconds tz realNow * 1000 + Js.getMilliseconds tz endTime.
Proof.
  intros [H1 H2]. unfold Js.localTime at 1. rewrite H2.
  unfold liveTarget, Js.setHours, Js.toUTC. rewrite H1.
  unfold Js.makeLocal. lia.
Qed.

Lemma clock_fields (t : Z) :
  0 <= Js.getHours tz t < 24 /\ 0 <= Js.getMinutes tz t < 60
  /\ 0 <= Js.getSeconds tz t < 60 /\ 0 <= Js.getMilliseconds tz t < 1000.
Proof.
  unfold Js.getHours, Js.getMinutes, Js.getSeconds, Js.getMilliseconds,
    Js.msPerDay.
  generalize (Js.localTime tz t). intros L.
  change (24 * 60 * 60 * 1000) with 86400000.
  Z.div_mod_to_equations. lia.
Qed.

Lemma localDay_multiple (t : Z) :
  exists k, Js.localDay tz t = 86400000 * k
            /\ 0 <= Js.localTime tz t - Js.localDay tz t < 86400000.
Proof.
  unfold Js.localDay, Js.msPerDay.
  generalize (Js.localTime tz t). intros L.
  change (24 * 60 * 60 * 1000) with 86400000.
  exists (L / 86400000). Z.div_mod_to_equations. lia.
Qed.

(** The candidate has the date of [endTime], the hour, minute and second
    of the wall clock, and the milliseconds of [endTime]. *)
Lemma liveTarget_fields (realNow endTime : Z) :
  steadyOffset tz realNow endTime ->
  let candidate := liveTarget tz realNow endTime in
  Js.localDay tz candidate = Js.localDay tz endTime
  /\ Js.getHours tz candidate = Js.getHours tz realNow
  /\ Js.getMinutes tz candidate = Js.getMinutes tz realNow
  /\ Js.getSeconds tz candidate = Js.getSeconds tz realNow
  /\ Js.getMilliseconds tz candidate = Js.getMilliseconds tz endTime.
Proof.
  intros Hoff candidate.
  pose proof (liveTarget_local realNow endTime Hoff) as HL.
  fold candidate in HL.
  destruct (clock_fields realNow) as (Hh & Hm & Hs & _).
  destruct (clock_fields endTime) as (_ & _ & _ & Hms).
  destruct (localDay_multiple endTime) as (k & Hk & _).
  revert HL Hh Hm Hs Hms Hk.
  generalize (Js.getHours tz realNow) (Js.getMinutes tz realNow)
    (Js.getSeconds tz realNow) (Js.getMilliseconds tz endTime)
    (Js.localDay tz endTime).
  intros h m s ms d HL Hh Hm Hs Hms Hk.
  unfold Js.localDay, Js.getHours, Js.getMinutes, Js.getSeconds,
    Js.getMilliseconds, Js.msPerDay.
  rewrite HL. change (24 * 60 * 60 * 1000) with 86400000.
  subst d. repeat split; Z.div_mod_to_equations; lia.
Qed.

(** Under a steady offset the candidate is less than a day away from
    [endTime], on either side. *)
Lemma liveTarget_near (realNow endTime : Z) :
  steadyOffset tz realNow endTime ->
  endTime - 86400000 < liveTarget tz realNow endTime < endTime + 86400000.
Proof.
  intros Hoff.
  pose proof (liveTarget_local realNow endTime Hoff) as HL.
  destruct Hoff as [_ H2].
  destruct (clock_fields realNow) as (Hh & Hm & Hs & _).
  destruct (clock_fields endTime) as (_ & _ & _ & Hms).
  destruct (localDay_multiple endTime) as (k & _ & Hk).
  unfold Js.localTime in HL, Hk. rewrite H2 in HL. lia.
Qed.

Lemma liveStep_in_range (realNow startTime endTime : Z) :
  steadyOffset tz realNow endTime ->
  24 * 60 * 60 * 1000 <= endTime - startTime ->
  startTime <= liveStep tz realNow startTime endTime <= endTime.
Proof.
  intros Hoff Hspan. unfold liveStep.
  pose proof (liveTarget_near realNow endTime Hoff) as Hc.
  set (c := liveTarget tz realNow endTime) in *.
  destruct (endTime <? c) eqn:E1;
    [apply Z.ltb_lt in E1|apply Z.ltb_ge in E1];
    match goal with |- context [?x <? startTime] =>
      destruct (x <? startTime) eqn:E2;
        [apply Z.ltb_lt in E2|apply Z.ltb_ge in E2] end;
    lia.
Qed.
End LiveClock.

(** C2 as the code has it.  Provided the zone's offset does not change
    between [datasetEnd] and the candidate, the candidate of a LIVE tick
    has the calendar date of [datasetEnd], the hour, minute and second of
    the wall clock and the millisecond part of [datasetEnd]; when moreover
    the dataset spans at least 24 hours, the time stored after the two
    wrap-around tests lies in [datasetStart, datasetEnd]. *)
Theorem live_day_mapping (tz : Js.Zone) (realNow startTime endTime : Z) :
  Sim.steadyOffset tz realNow endTime ->
  (24 * 60 * 60 * 1000 <= endTime - startTime)%Z ->
  let candidate := Sim.liveTarget tz realNow endTime in
  (Js.localDay tz candidate = Js.localDay tz endTime
   /\ Js.getHours tz candidate = Js.getHours tz realNow
   /\ Js.getMinutes tz candidate = Js.getMinutes tz realNow
   /\ Js.getSeconds tz candidate = Js.getSeconds tz realNow
   /\ Js.getMilliseconds tz candidate = Js.getMilliseconds tz endTime)
  /\ (startTime <= Sim.liveStep tz realNow startTime endTime <= endTime)%Z
  /\ (forall replaySpeed now,
         Sim.advance true replaySpeed tz realNow startTime endTime now
         = inject_Z (Sim.liveStep tz realNow startTime endTime)).
Proof.
  intros Hoff Hspan candidate.
  split; [now apply liveTarget_fields|].
  split; [now apply liveStep_in_range|reflexivity].
Qed.

Lemma live_day_mapping_witness :
  Sim.steadyOffset (Js.fixedZone 3600000) 1733486400123 1733097600000
  /\ (24 * 60 * 60 * 1000 <= 1733097600000 - 1733011200000)%Z
  /\ (1733011200000
      <= Sim.liveStep (Js.fixedZone 3600000) 1733486400123 1733011200000
                      1733097600000
      <= 1733097600000)%Z.
Proof.
  split; [split; reflexivity|].
  split; [vm_compute; discriminate|].
  apply (live_day_mapping (Js.fixedZone 3600000) 1733486400123
                          1733011200000 1733097600000).
  - split; reflexivity.
  - vm_compute; discriminate.
Defined.

(** C2 as stated fails on a dataset shorter than a day: rows from 00:00 to
    23:50 of 2024-12-01 (UTC) and a wall clock showing 23:55 give a virtual
    time of 23:55 on that day, five minutes after [datasetEnd]. *)
Lemma live_day_mapping_short_dataset :
  let startTime := 1733011200000%Z in
  let endTime := (1733011200000 + 85800000)%Z in
  let realNow := (1733443200000 + 86100000)%Z in
  Js.getHours (Js.fixedZone 0) realNow = 23%Z
  /\ Js.getMinutes (Js.fixedZone 0) realNow = 55%Z
  /\ Sim.liveStep (Js.fixedZone 0) realNow startTime endTime
     = (endTime + 300000)%Z
  /\ ~ (startTime
        <= Sim.liveStep (Js.fixedZone 0) realNow startTime endTime
        <= endTime)%Z.
Proof.
  vm_compute. repeat split; try reflexivity. intros [_ H]. now apply H.
Qed.

(** Why C2 needs the steady offset: in New York a dataset of exactly 24
    hours ending on 2024-11-03 at 00:30 (UTC-4), read at a wall clock of
    23:45 on that day (UTC-5 by then), gives a candidate at 23:45 UTC-5;
    one day earlier is 00:45 UTC-4, a quarter of an hour after
    [datasetEnd]. *)
Lemma live_day_mapping_offset_change :
  let endTime := 1730608200000%Z in
  let startTime := (endTime - 86400000)%Z in
  let realNow := 1730695500000%Z in
  Js.getHours Js.newYork2024 endTime = 0%Z
  /\ Js.getMinutes Js.newYork2024 endTime = 30%Z
  /\ Js.getHours Js.newYork2024 realNow = 23%Z
  /\ Js.getMinutes Js.newYork2024 realNow = 45%Z
  /\ ~ Sim.steadyOffset Js.newYork2024 realNow endTime
  /\ Sim.liveStep Js.newYork2024 realNow startTime endTime
     = (endTime + 900000)%Z.
Proof.
  vm_compute. repeat split; try reflexivity. intros [H _]. discriminate H.
Qed.

(** ** Further facts on useLiveSimulation *)

Section RangeFacts.
Import Sim.
Local Open Scope Z_scope.

Lemma min_of_in (t : Z) (ts : list Z) : In (Js.min_of t ts) (t :: ts).
Proof.
  unfold Js.min_of. induction ts as [|y ts IH]; simpl; [now left|].
  destruct (Z.min_spec y (fold_right Z.min t ts)) as [[_ ->]|[_ ->]].
  - right. now left.
  - destruct IH as [IH|IH]; [now left|right; now right].
Qed.

Lemma max_of_in (t : Z) (ts : list Z) : In (Js.max_of t ts) (t :: ts).
Proof.
  unfold Js.max_of. induction ts as [|y ts IH]; simpl; [now left|].
  destruct (Z.max_spec y (fold_right Z.max t ts)) as [[_ ->]|[_ ->]].
  - destruct IH as [IH|IH]; [now left|right; now right].
  - right. now left.
Qed.

Lemma isRange_unique rows lo hi lo' hi' :
  isRange rows lo hi -> isRange rows lo' hi' -> lo = lo' /\ hi = hi'.
Proof.
  intros ((a & Ha & <-) & (b & Hb & <-) & H)
         ((a' & Ha' & <-) & (b' & Hb' & <-) & H').
  pose proof (H a' Ha'). pose proof (H b' Hb').
  pose proof (H' a Ha). pose proof (H' b Hb). lia.
Qed.

Lemma initRange_isRange (rows : list Row) (r : Refs) :
  rows <> [] ->
  exists lo hi,
    isRange rows lo hi
    /\ startTimeRef (initRange rows r) = Some lo
    /\ endTimeRef (initRange rows r) = Some hi
    /\ spanOf rows = hi - lo.
Proof.
  intros Hne. unfold initRange, spanOf.
  assert (Hin : forall x, In x (map timestamp rows)
                          -> exists d, In d rows /\ timestamp d = x).
  { intros x Hx. apply in_map_iff in Hx as (d & <- & Hd). eauto. }
  assert (Hb : forall d, In d rows -> In (timestamp d) (map timestamp rows))
    by (intros d; apply in_map).
  destruct (map timestamp rows) as [|t ts] eqn:E.
  - destruct rows; [contradiction|discriminate].
  - exists (Js.min_of t ts), (Js.max_of t ts). simpl.
    split; [|auto].
    split; [apply Hin, min_of_in|].
    split; [apply Hin, max_of_in|].
    intros d Hd. now apply min_max_bounds, Hb.
Qed.

Lemma initRange_of_range (rows : list Row) (r : Refs) lo hi :
  isRange rows lo hi ->
  startTimeRef (initRange rows r) = Some lo
  /\ endTimeRef (initRange rows r) = Some hi
  /\ spanOf rows = hi - lo.
Proof.
  intros H.
  assert (Hne : rows <> []).
  { destruct H as ((d & Hd & _) & _). intros ->. contradiction. }
  destruct (initRange_isRange rows r Hne) as (lo' & hi' & H' & -> & -> & ->).
  destruct (isRange_unique _ _ _ _ _ H H') as [-> ->]. auto.
Qed.
End RangeFacts.

(** X1.  On a non-empty dataset the range effect stores the earliest and
    the latest timestamp: both are timestamps of rows, every row lies
    between them, and a falsy [timeRef] is set to the earliest one while a
    truthy one is kept. *)
Theorem initRange_bounds (rows : list Sim.Row) (r : Sim.Refs) :
  rows <> [] ->
  exists lo hi,
    Sim.startTimeRef (Sim.initRange rows r) = Some lo
    /\ Sim.endTimeRef (Sim.initRange rows r) = Some hi
    /\ Sim.isRange rows lo hi
    /\ Sim.timeRef (Sim.initRange rows r)
       = (if Js.truthyQ (Sim.timeRef r) then Sim.timeRef r
          else Some (inject_Z lo)).
Proof.
  intros Hne.
  destruct (initRange_isRange rows r Hne) as (lo & hi & H & Hs & He & _).
  exists lo, hi. split; [exact Hs|]. split; [exact He|].
  split; [exact H|].
  unfold Sim.initRange in *.
  destruct (map Sim.timestamp rows) as [|t ts] eqn:E.
  - destruct rows; [contradiction|discriminate].
  - simpl in *. injection Hs as Hs. rewrite <- Hs. reflexivity.
Qed.

Lemma initRange_bounds_witness :
  [Sim.exampleRow 1733054400000; Sim.exampleRow 1733011200000] <> []
  /\ exists lo hi,
       Sim.startTimeRef
         (Sim.initRange [Sim.exampleRow 1733054400000;
                         Sim.exampleRow 1733011200000] Sim.initialRefs)
       = Some lo
       /\ Sim.endTimeRef
            (Sim.initRange [Sim.exampleRow 1733054400000;
                            Sim.exampleRow 1733011200000] Sim.initialRefs)
          = Some hi
       /\ Sim.isRange [Sim.exampleRow 1733054400000;
                       Sim.exampleRow 1733011200000] lo hi
       /\ Sim.timeRef
            (Sim.initRange [Sim.exampleRow 1733054400000;
                            Sim.exampleRow 1733011200000] Sim.initialRefs)
          = (if Js.truthyQ (Sim.timeRef Sim.initialRefs)
             then Sim.timeRef Sim.initialRefs
             else Some (inject_Z lo)).
Proof.
  split; [discriminate|].
  apply (initRange_bounds [Sim.exampleRow 1733054400000;
                           Sim.exampleRow 1733011200000] Sim.initialRefs).
  discriminate.
Defined.

(** X2.  The timer is not started exactly when the dataset is empty or its
    earliest or latest row is stamped with the instant 0: the guard tests
    the two bounds for truthiness. *)
Theorem timer_start_criterion (rows : list Sim.Row) (r : Sim.Refs) :
  Sim.timerStarts rows (Sim.initRange rows r) = false
  <-> rows = []
      \/ exists d, In d rows /\ Sim.timestamp d = 0%Z
                   /\ ((forall d', In d' rows -> (0 <= Sim.timestamp d')%Z)
                       \/ (forall d', In d' rows -> (Sim.timestamp d' <= 0)%Z)).
Proof.
  destruct rows as [|d0 rows'].
  - split; [now left|reflexivity].
  - set (rows := d0 :: rows').
    destruct (initRange_isRange rows r) as (lo & hi & H & Hs & He & _);
      [discriminate|].
    unfold Sim.timerStarts. rewrite Hs, He. simpl Js.truthyZ.
    destruct H as ((a & Ha & Ea) & (b & Hb & Eb) & H).
    change (List.length rows =? 0)%nat with false. simpl orb.
    rewrite !negb_involutive, negb_false_iff, orb_true_iff, !Z.eqb_eq.
    split.
    + intros [E0 | E0]; rewrite E0 in *; right.
      * exists a. repeat split; auto. left. intros d' Hd'.
        now apply H.
      * exists b. repeat split; auto. right. intros d' Hd'.
        now apply H.
    + intros [Habs|(d & Hd & Ed & [Hall|Hall])]; [discriminate| |].
      * left. pose proof (H d Hd). pose proof (Hall a Ha). lia.
      * right. pose proof (H d Hd). pose proof (Hall b Hb). lia.
Qed.

Section ExtensionFacts.
Import Sim.
Local Open Scope Z_scope.

Let shift (d : Row) : Row := withTimestamp d (timestamp d - 86400000).
Let tsLe (a b : Row) : Prop := timestamp a <= timestamp b.

Lemma sort_in (rows : list Row) (d : Row) :
  In d (Js.sort byTimestamp rows) <-> In d rows.
Proof.
  split; apply Permutation_in;
    [apply sort_perm|symmetry; apply sort_perm].
Qed.

Lemma StronglySorted_app_inv {A} (R : A -> A -> Prop) (l1 l2 : list A) :
  StronglySorted R (l1 ++ l2) ->
  forall a b, In a l1 -> In b l2 -> R a b.
Proof.
  induction l1 as [|x l1 IH]; simpl; intros Hs a b Ha Hb; [contradiction|].
  apply StronglySorted_inv in Hs as [Hs Hx]. destruct Ha as [<-|Ha].
  - rewrite Forall_forall in Hx. apply Hx, in_or_app. now right.
  - now apply IH.
Qed.

Lemma fullData_sorted (inputData : list Row) (historyHours : Z) :
  historyHours <= 24 \/ spanOf inputData <= 86400000 ->
  StronglySorted tsLe (fullData inputData historyHours).
Proof.
  intros H. destruct (Z_le_gt_dec historyHours 24) as [Hh|Hh].
  - rewrite fullData_short by exact Hh. apply sorted_by_timestamp.
  - destruct H as [H|H]; [lia|]. rewrite fullData_long by lia.
    apply StronglySorted_app.
    + apply StronglySorted_map.
      apply StronglySorted_weaken with (R := tsLe).
      * intros a b _ _ Hab. unfold tsLe in *. simpl. lia.
      * apply sorted_by_timestamp.
    + apply sorted_by_timestamp.
    + intros a b Ha Hb. apply in_map_iff in Ha as (a' & <- & Ha).
      apply (proj1 (sort_in _ _)) in Ha, Hb.
      pose proof (spanOf_bound inputData b a' Hb Ha).
      unfold tsLe. simpl. lia.
Qed.

Lemma fullData_long_range (inputData : list Row) (historyHours lo hi : Z) :
  24 < historyHours -> isRange inputData lo hi ->
  isRange (fullData inputData historyHours) (lo - 86400000) hi.
Proof.
  intros Hh ((a & Ha & Ea) & (b & Hb & Eb) & H).
  rewrite fullData_long by exact Hh. split; [|split].
  - exists (shift a). split; [|unfold shift; simpl; lia].
    apply in_or_app. left. apply in_map. now apply (proj2 (sort_in _ _)).
  - exists b. split; [|exact Eb].
    apply in_or_app. right. now apply (proj2 (sort_in _ _)).
  - intros d Hd. apply in_app_or in Hd as [Hd|Hd].
    + apply in_map_iff in Hd as (d' & <- & Hd').
      apply (proj1 (sort_in _ _)) in Hd'.
      pose proof (H d' Hd'). simpl. lia.
    + apply (proj1 (sort_in _ _)) in Hd. pose proof (H d Hd). lia.
Qed.
End ExtensionFacts.

(** X3.  Asking for more than 24 hours moves the start of the range back by
    exactly one day and leaves its end where it was, whatever the span of
    the input: the dataset has twice the rows, namely the input and a copy
    of it stamped 24 hours earlier. *)
Theorem extended_range (inputData : list Sim.Row) (historyHours : Z)
        (r : Sim.Refs) :
  inputData <> [] -> (24 < historyHours)%Z ->
  let full := Sim.fullData inputData historyHours in
  exists lo hi,
    Sim.isRange inputData lo hi
    /\ Sim.startTimeRef (Sim.initRange full r) = Some (lo - 86400000)%Z
    /\ Sim.endTimeRef (Sim.initRange full r) = Some hi
    /\ Sim.spanOf full = (Sim.spanOf inputData + 86400000)%Z
    /\ List.length full = (2 * List.length inputData)%nat
    /\ Permutation full
         (map (fun d => Sim.withTimestamp d (Sim.timestamp d - 86400000)%Z)
              inputData ++ inputData).
Proof.
  intros Hne Hh full.
  destruct (initRange_isRange inputData r Hne) as (lo & hi & H & _ & _ & Hsp).
  pose proof (fullData_long_range inputData historyHours lo hi Hh H) as Hf.
  destruct (initRange_of_range _ r _ _ Hf) as (Hs & He & Hsp').
  exists lo, hi. fold full in Hs, He, Hsp'.
  split; [exact H|]. split; [exact Hs|]. split; [exact He|].
  split; [rewrite Hsp', Hsp; lia|].
  subst full. rewrite fullData_long by exact Hh.
  split.
  - rewrite length_app, length_map, sort_length. lia.
  - apply Permutation_app; [apply Permutation_map|]; apply sort_perm.
Qed.

Lemma extended_range_witness :
  [Sim.exampleRow 1733054400000; Sim.exampleRow 1733011200000] <> []
  /\ (24 < 48)%Z
  /\ exists lo hi,
       Sim.isRange [Sim.exampleRow 1733054400000;
                    Sim.exampleRow 1733011200000] lo hi
       /\ Sim.startTimeRef
            (Sim.initRange
               (Sim.fullData [Sim.exampleRow 1733054400000;
                              Sim.exampleRow 1733011200000] 48)
               Sim.initialRefs)
          = Some (lo - 86400000)%Z.
Proof.
  split; [discriminate|]. split; [reflexivity|].
  destruct (extended_range [Sim.exampleRow 1733054400000;
                            Sim.exampleRow 1733011200000] 48
                           Sim.initialRefs)
    as (lo & hi & H1 & H2 & _); [discriminate|reflexivity|].
  exists lo, hi. split; assumption.
Defined.

(** X4.  The extended dataset is ascending in time exactly when the input
    spans at most 24 hours; for a longer input the shifted copy overlaps
    the original and the concatenation is out of order. *)
Theorem extended_sorted_iff (inputData : list Sim.Row) (historyHours : Z) :
  inputData <> [] -> (24 < historyHours)%Z ->
  StronglySorted (fun a b => (Sim.timestamp a <= Sim.timestamp b)%Z)
                 (Sim.fullData inputData historyHours)
  <-> (Sim.spanOf inputData <= 86400000)%Z.
Proof.
  intros Hne Hh. split.
  - intros Hs.
    destruct (initRange_isRange inputData Sim.initialRefs Hne)
      as (lo & hi & ((a & Ha & Ea) & (b & Hb & Eb) & _) & _ & _ & ->).
    rewrite fullData_long in Hs by exact Hh.
    pose proof (StronglySorted_app_inv _ _ _ Hs
                  (Sim.withTimestamp b (Sim.timestamp b - 86400000)%Z) a)
      as H.
    simpl in H. rewrite <- Ea, <- Eb.
    assert (Sim.timestamp b - 86400000 <= Sim.timestamp a)%Z; [|lia].
    apply H.
    + apply in_map_iff. exists b.
      split; [reflexivity|now apply (proj2 (sort_in _ _))].
    + now apply (proj2 (sort_in _ _)).
  - intros Hsp. apply fullData_sorted. now right.
Qed.

Lemma extended_sorted_iff_witness :
  [Sim.exampleRow 1733054400000; Sim.exampleRow 1733011200000] <> []
  /\ (24 < 48)%Z
  /\ (StronglySorted (fun a b => (Sim.timestamp a <= Sim.timestamp b)%Z)
        (Sim.fullData [Sim.exampleRow 1733054400000;
                       Sim.exampleRow 1733011200000] 48)
      <-> (Sim.spanOf [Sim.exampleRow 1733054400000;
                       Sim.exampleRow 1733011200000] <= 86400000)%Z).
Proof.
  split; [discriminate|]. split; [reflexivity|].
  apply (extended_sorted_iff [Sim.exampleRow 1733054400000;
                              Sim.exampleRow 1733011200000] 48);
    [discriminate|reflexivity].
Defined.

Section SortIdempotent.
Context {A : Type} (compareFn : A -> A -> Z).

Lemma sort_sorted_id (l : list A) :
  StronglySorted (fun x y => (compareFn x y <= 0)%Z) l ->
  Js.sort compareFn l = l.
Proof.
  induction 1 as [|x l Hs IH Hx]; [reflexivity|].
  simpl. rewrite IH. destruct l as [|y l']; [reflexivity|].
  simpl. apply Forall_inv in Hx. apply Z.leb_le in Hx. now rewrite Hx.
Qed.
End SortIdempotent.

(** X5.  Preparing prepared data changes nothing: with horizons of at most
    24 hours, [fullData] applied to its own result returns that result. *)
Theorem prepare_idempotent (inputData : list Sim.Row) (h h' : Z) :
  (h <= 24)%Z -> (h' <= 24)%Z ->
  Sim.fullData (Sim.fullData inputData h) h' = Sim.fullData inputData h.
Proof.
  intros Hh Hh'. rewrite (fullData_short _ h') by exact Hh'.
  rewrite fullData_short by exact Hh.
  apply sort_sorted_id.
  apply sort_sorted; intros; unfold Sim.byTimestamp in *; lia.
Qed.

Lemma prepare_idempotent_witness :
  (24 <= 24)%Z /\ (12 <= 24)%Z
  /\ Sim.fullData
       (Sim.fullData [Sim.exampleRow 1733054400000;
                      Sim.exampleRow 1733011200000] 24) 12
     = Sim.fullData [Sim.exampleRow 1733054400000;
                     Sim.exampleRow 1733011200000] 24.
Proof.
  split; [discriminate|]. split; [discriminate|].
  apply (prepare_idempotent [Sim.exampleRow 1733054400000;
                             Sim.exampleRow 1733011200000] 24 12);
    discriminate.
Defined.

Section WindowFacts.
Import Sim.
Local Open Scope Q_scope.

Lemma slice_in (fullData : list Row) (now : Q) (d : Row) :
  In d (slice fullData now)
  <-> In d fullData /\ inject_Z (timestamp d) <= now.
Proof.
  unfold slice. rewrite filter_In, Qle_bool_iff. reflexivity.
Qed.

Lemma slice_above (fullData : list Row) (now : Q) :
  Forall (fun d => now < inject_Z (timestamp d)) fullData ->
  slice fullData now = [].
Proof.
  induction 1 as [|d l Hd _ IH]; [reflexivity|].
  unfold slice in *. simpl. rewrite IH.
  destruct (Qle_bool _ _) eqn:E; [|reflexivity].
  apply Qle_bool_iff in E. lra.
Qed.

Lemma slice_sorted_prefix (fullData : list Row) (now : Q) :
  StronglySorted (fun a b => (timestamp a <= timestamp b)%Z) fullData ->
  exists k, slice fullData now = firstn k fullData
            /\ Forall (fun d => now < inject_Z (timestamp d))
                      (skipn k fullData).
Proof.
  induction 1 as [|d l Hs IH Hd].
  - exists 0%nat. split; [reflexivity|constructor].
  - unfold slice. simpl. destruct (Qle_bool _ _) eqn:E.
    + destruct IH as (k & Hk & Hr). exists (S k). simpl.
      unfold slice in Hk. now rewrite Hk.
    + exists 0%nat. simpl.
      assert (Hnow : now < inject_Z (timestamp d)).
      { apply Qnot_le_lt. intros H. apply Qle_bool_iff in H. congruence. }
      assert (Hall : Forall (fun d' => now < inject_Z (timestamp d')) l).
      { eapply Forall_impl; [|exact Hd]. intros d' Hle. simpl in Hle.
        rewrite Zle_Qle in Hle. lra. }
      split; [now apply slice_above|now constructor].
Qed.
End WindowFacts.

(** X6.  Windows grow with the clock: for [now1 <= now2] the window at
    [now1] is the window at [now2] cut at [now1]; every row visible at
    [now1] is visible at [now2] and the earlier window is not longer. *)
Theorem window_monotone (fullData : list Sim.Row) (now1 now2 : Q) :
  now1 <= now2 ->
  Sim.slice fullData now1 = Sim.slice (Sim.slice fullData now2) now1
  /\ incl (Sim.slice fullData now1) (Sim.slice fullData now2)
  /\ (List.length (Sim.slice fullData now1)
      <= List.length (Sim.slice fullData now2))%nat.
Proof.
  intros Hle.
  assert (E : Sim.slice fullData now1
              = Sim.slice (Sim.slice fullData now2) now1).
  { induction fullData as [|d l IH]; [reflexivity|].
    unfold Sim.slice in *. simpl.
    destruct (Qle_bool (inject_Z (Sim.timestamp d)) now1) eqn:E1;
      destruct (Qle_bool (inject_Z (Sim.timestamp d)) now2) eqn:E2;
      simpl; rewrite ?E1, <- ?IH; try reflexivity.
    apply Qle_bool_iff in E1.
    assert (E3 : Qle_bool (inject_Z (Sim.timestamp d)) now2 = true)
      by (apply Qle_bool_iff; lra).
    congruence. }
  split; [exact E|]. split.
  - intros d Hd. rewrite E in Hd. apply slice_in in Hd. tauto.
  - rewrite E. unfold Sim.slice at 1. apply filter_length_le.
Qed.

Lemma window_monotone_witness :
  1733011200000 <= 1733054400000
  /\ incl (Sim.slice [Sim.exampleRow 1733011200000;
                      Sim.exampleRow 1733054400000] 1733011200000)
          (Sim.slice [Sim.exampleRow 1733011200000;
                      Sim.exampleRow 1733054400000] 1733054400000).
Proof.
  split; [discriminate|].
  apply (window_monotone [Sim.exampleRow 1733011200000;
                          Sim.exampleRow 1733054400000]
                         1733011200000 1733054400000).
  discriminate.
Defined.

(** X7.  When the prepared dataset is ascending (a horizon of at most 24
    hours, or an input spanning at most 24 hours) the window is a prefix of
    it: the first [k] rows, all later rows being stamped after the
    clock. *)
Theorem window_is_prefix (inputData : list Sim.Row) (historyHours : Z)
        (now : Q) :
  (historyHours <= 24)%Z \/ (Sim.spanOf inputData <= 86400000)%Z ->
  let full := Sim.fullData inputData historyHours in
  exists k, Sim.slice full now = firstn k full
            /\ Forall (fun d => now < inject_Z (Sim.timestamp d))
                      (skipn k full).
Proof.
  intros H full. apply slice_sorted_prefix. now apply fullData_sorted.
Qed.

Lemma window_is_prefix_witness :
  ((24 <= 24)%Z
   \/ (Sim.spanOf [Sim.exampleRow 1733054400000;
                   Sim.exampleRow 1733011200000] <= 86400000)%Z)
  /\ exists k,
       Sim.slice (Sim.fullData [Sim.exampleRow 1733054400000;
                                Sim.exampleRow 1733011200000] 24)
                 1733011200000
       = firstn k (Sim.fullData [Sim.exampleRow 1733054400000;
                                 Sim.exampleRow 1733011200000] 24)
       /\ Forall (fun d => 1733011200000 < inject_Z (Sim.timestamp d))
                 (skipn k (Sim.fullData [Sim.exampleRow 1733054400000;
                                         Sim.exampleRow 1733011200000] 24)).
Proof.
  assert (H : (24 <= 24)%Z
              \/ (Sim.spanOf [Sim.exampleRow 1733054400000;
                              Sim.exampleRow 1733011200000] <= 86400000)%Z)
    by (left; discriminate).
  split; [exact H|].
  exact (window_is_prefix [Sim.exampleRow 1733054400000;
                           Sim.exampleRow 1733011200000] 24
                          1733011200000 H).
Defined.

Section ProgressFacts.
Import Sim.
Local Open Scope Q_scope.

End ProgressFacts.



Section ReplayPeriod.
Import Sim.
Local Open Scope Q_scope.

Lemma inject_nat_succ (j : nat) :
  inject_Z (Z.of_nat (S j)) == inject_Z (Z.of_nat j) + 1.
Proof. rewrite Nat2Z.inj_succ, <- Z.add_1_r, inject_Z_plus. reflexivity. Qed.

Lemma replay_linear replaySpeed startTime endTime (j : nat) :
  0 < replaySpeed ->
  inject_Z startTime + inject_Z (Z.of_nat j) * msPerTick replaySpeed
  < inject_Z endTime ->
  replayTicks replaySpeed startTime endTime j (inject_Z startTime)
  == inject_Z startTime + inject_Z (Z.of_nat j) * msPerTick replaySpeed.
Proof.
  intros Hs. pose proof (msPerTick_eq replaySpeed) as Hm.
  set (m := msPerTick replaySpeed) in *.
  assert (Hmpos : 0 < m) by lra.
  induction j as [|j IH]; intros Hlt.
  - simpl. change (inject_Z 0) with 0. lra.
  - pose proof (inject_nat_succ j) as Hj.
    assert (Hnn : 0 <= inject_Z (Z.of_nat j)).
    { change 0 with (inject_Z 0). rewrite <- Zle_Qle. lia. }
    rewrite Hj in Hlt. rewrite Hj.
    assert (IH' := IH ltac:(nra)).
    rewrite replayTicks_succ, replayStep_keep; fold m; [rewrite IH'; lra|].
    rewrite IH'. lra.
Qed.
(** With exact arithmetic the clock is periodic at every positive speed:
    [p] is the number of ticks that reach or pass the end. *)
Lemma replay_period replaySpeed startTime endTime (p : nat) :
  0 < replaySpeed -> (startTime < endTime)%Z ->
  inject_Z (Z.of_nat p) * msPerTick replaySpeed
  < inject_Z endTime - inject_Z startTime + msPerTick replaySpeed ->
  inject_Z endTime - inject_Z startTime
  <= inject_Z (Z.of_nat p) * msPerTick replaySpeed ->
  (forall j, (j < p)%nat ->
     replayTicks replaySpeed startTime endTime j (inject_Z startTime)
     == inject_Z startTime
        + inject_Z (Z.of_nat j) * msPerTick replaySpeed)
  /\ (0 < p)%nat
  /\ replayTicks replaySpeed startTime endTime p (inject_Z startTime)
     = inject_Z startTime
  /\ (forall n,
        replayTicks replaySpeed startTime endTime (n + p)
                        (inject_Z startTime)
        = replayTicks replaySpeed startTime endTime n
                          (inject_Z startTime)).
Proof.
  intros Hs Hse Hlo Hhi. pose proof (msPerTick_eq replaySpeed) as Hm.
  rewrite Zlt_Qlt in Hse.
  set (m := msPerTick replaySpeed) in *.
  assert (Hmpos : 0 < m) by lra.
  assert (Hlin : forall j, (j < p)%nat ->
            replayTicks replaySpeed startTime endTime j
              (inject_Z startTime)
            == inject_Z startTime + inject_Z (Z.of_nat j) * m).
  { intros j Hj. apply replay_linear; [exact Hs|]. fold m.
    assert (Hjp : inject_Z (Z.of_nat j) + 1 <= inject_Z (Z.of_nat p)).
    { rewrite <- inject_nat_succ, <- Zle_Qle. lia. }
    nra. }
  destruct p as [|p'].
  { exfalso. change (inject_Z (Z.of_nat 0)) with 0 in *. lra. }
  assert (Hp : replayTicks replaySpeed startTime endTime (S p')
                 (inject_Z startTime) = inject_Z startTime).
  { rewrite replayTicks_succ. apply replayStep_wrap. fold m.
    rewrite (Hlin p') by lia.
    pose proof (inject_nat_succ p') as Hj. rewrite Hj in Hhi. lra. }
  split; [exact Hlin|]. split; [lia|]. split; [exact Hp|].
  intros n. unfold replayTicks in *.
  now rewrite Nat.iter_add, Hp.
Qed.

Lemma msPerTick_whole (k : Z) :
  msPerTick (inject_Z (10 * k)) == inject_Z (k * 60000).
Proof.
  rewrite msPerTick_eq, !inject_Z_mult.
  change (inject_Z 10) with 10. change (inject_Z 60000) with 60000. ring.
Qed.
End ReplayPeriod.

(** X9.  REPLAY is periodic.  Take a speed of [10 * k] for a positive
    integer [k], so that a tick advances the clock by [k] minutes, a range
    that starts at or after the epoch, and [end + k * 60000 <= 2^53]: every
    number the tick computes is then an integer that a double holds
    exactly.  If [p] ticks are needed to reach or pass the end of the range
    ([ (p-1) * k * 60000 < end - start <= p * k * 60000 ]), the clock
    started at the start shows [start + j * k * 60000] after [j < p] ticks,
    is back at the start after exactly [p] ticks, and from then on
    repeats: the state after [n + p] ticks is the state after [n] ticks. *)
Theorem replay_periodic (k startTime endTime : Z) (p : nat) :
  (0 < k)%Z -> (0 <= startTime)%Z -> (startTime < endTime)%Z ->
  (endTime + k * 60000 <= 2 ^ 53)%Z ->
  ((Z.of_nat p - 1) * (k * 60000) < endTime - startTime)%Z ->
  (endTime - startTime <= Z.of_nat p * (k * 60000))%Z ->
  let replaySpeed := inject_Z (10 * k) in
  (forall j, (j < p)%nat ->
     Sim.replayTicks replaySpeed startTime endTime j (inject_Z startTime)
     == inject_Z (startTime + Z.of_nat j * (k * 60000)))
  /\ (0 < p)%nat
  /\ Sim.replayTicks replaySpeed startTime endTime p (inject_Z startTime)
     = inject_Z startTime
  /\ (forall n,
        Sim.replayTicks replaySpeed startTime endTime (n + p)
                        (inject_Z startTime)
        = Sim.replayTicks replaySpeed startTime endTime n
                          (inject_Z startTime)).
Proof.
  intros Hk H0 Hse Hmax Hlo Hhi replaySpeed.
  pose proof (msPerTick_whole k) as Hm. fold replaySpeed in Hm.
  assert (Hs : 0 < replaySpeed).
  { unfold replaySpeed. change 0 with (inject_Z 0). rewrite <- Zlt_Qlt. lia. }
  assert (Hlo' : (Z.of_nat p * (k * 60000)
                  < endTime - startTime + k * 60000)%Z) by lia.
  rewrite Zlt_Qlt in Hlo'. rewrite Zle_Qle in Hhi.
  rewrite inject_Z_plus in Hlo'.
  unfold Zminus in Hlo', Hhi.
  rewrite inject_Z_plus, inject_Z_opp, inject_Z_mult, <- Hm in Hlo', Hhi.
  destruct (replay_period replaySpeed startTime endTime p Hs Hse)
    as (Hlin & Hp & Hback & Hper); [lra|lra|].
  split; [|auto].
  intros j Hj. rewrite (Hlin j Hj), inject_Z_plus, inject_Z_mult, Hm.
  reflexivity.
Qed.

Lemma replay_periodic_witness :
  (0 < 6)%Z /\ (1733011200000 < 1733097600000)%Z
  /\ (1733097600000 + 6 * 60000 <= 2 ^ 53)%Z
  /\ Sim.replayTicks (inject_Z (10 * 6)) 1733011200000 1733097600000 240
                     (inject_Z 1733011200000)
     = inject_Z 1733011200000.
Proof.
  split; [reflexivity|]. split; [reflexivity|].
  split; [vm_compute; discriminate|].
  destruct (replay_periodic 6 1733011200000 1733097600000 240)
    as (_ & _ & H & _);
    [reflexivity | vm_compute; discriminate | reflexivity
    | vm_compute; discriminate | reflexivity | vm_compute; discriminate
    | exact H].
Defined.

Section ModeSwitch.
Import Sim.

Lemma liveStep_bounds (tz : Js.Zone) (realNow startTime endTime : Z) :
  steadyOffset tz realNow endTime ->
  (startTime <= endTime ->
   startTime <= liveStep tz realNow startTime endTime < endTime + 86400000)%Z.
Proof.
  intros Hoff Hse. unfold liveStep.
  pose proof (liveTarget_near tz realNow endTime Hoff) as Hc.
  set (c := liveTarget tz realNow endTime) in *.
  destruct (endTime <? c)%Z eqn:E1;
    [apply Z.ltb_lt in E1|apply Z.ltb_ge in E1];
    match goal with |- context [(?x <? startTime)%Z] =>
      destruct (x <? startTime)%Z eqn:E2;
        [apply Z.ltb_lt in E2|apply Z.ltb_ge in E2] end;
    lia.
Qed.

Lemma replayStep_recovers replaySpeed startTime endTime now :
  0 < replaySpeed -> (startTime < endTime)%Z -> inject_Z startTime <= now ->
  inject_Z startTime <= replayStep replaySpeed startTime endTime now
  /\ replayStep replaySpeed startTime endTime now < inject_Z endTime.
Proof.
  intros Hs Hlt Hnow. rewrite Zlt_Qlt in Hlt.
  pose proof (msPerTick_eq replaySpeed) as Hm.
  destruct (replayStep_cases replaySpeed startTime endTime now)
    as [[H ->]|[H ->]]; lra.
Qed.
End ModeSwitch.

(** X10.  Provided the zone's offset does not change between the end of
    the range and the candidate, a LIVE tick never leaves the clock before
    the start of the range, and leaves it less than a day after its end,
    whatever the span of the dataset; so when the mode changes to REPLAY
    without a reset, the clock is inside [start, end) from the first
    REPLAY tick on. *)
Theorem live_then_replay (tz : Js.Zone) (realNow startTime endTime : Z)
        (replaySpeed : Q) (n : nat) :
  Sim.steadyOffset tz realNow endTime ->
  (startTime < endTime)%Z -> 0 < replaySpeed ->
  let live := Sim.liveStep tz realNow startTime endTime in
  (startTime <= live < endTime + 86400000)%Z
  /\ inject_Z startTime
     <= Sim.replayTicks replaySpeed startTime endTime (S n) (inject_Z live)
  /\ Sim.replayTicks replaySpeed startTime endTime (S n) (inject_Z live)
     < inject_Z endTime.
Proof.
  intros Hoff Hlt Hs live.
  assert (Hl : (startTime <= live < endTime + 86400000)%Z)
    by (apply liveStep_bounds; [exact Hoff|lia]).
  split; [exact Hl|].
  induction n as [|n [IH1 IH2]].
  - apply replayStep_recovers; try assumption.
    rewrite <- Zle_Qle. lia.
  - rewrite replayTicks_succ. now apply replayStep_recovers.
Qed.

Lemma live_then_replay_witness :
  Sim.steadyOffset (Js.fixedZone 0) 1733529300000 1733097000000
  /\ (1733011200000 < 1733097000000)%Z /\ 0 < 60
  /\ (1733011200000
      <= Sim.liveStep (Js.fixedZone 0) 1733529300000 1733011200000
                      1733097000000
      < 1733097000000 + 86400000)%Z.
Proof.
  split; [split; reflexivity|]. split; [reflexivity|].
  split; [reflexivity|].
  apply (live_then_replay (Js.fixedZone 0) 1733529300000 1733011200000
                          1733097000000 60 0);
    [split; reflexivity|reflexivity|reflexivity].
Defined.

(** X11.  The LIVE clock depends on the wall clock only through its hour,
    minute and second: wall clocks 24 hours apart, or differing only in
    the milliseconds, give the same virtual time, provided both are read
    under the same offset of the zone. *)
Theorem live_wall_clock_periodic (tz : Js.Zone)
        (realNow startTime endTime : Z) :
  tz (realNow + 86400000)%Z true = tz realNow true ->
  tz (realNow - Js.getMilliseconds tz realNow)%Z true = tz realNow true ->
  Sim.liveStep tz (realNow + 86400000) startTime endTime
  = Sim.liveStep tz realNow startTime endTime
  /\ Sim.liveStep tz (realNow - Js.getMilliseconds tz realNow)
                  startTime endTime
     = Sim.liveStep tz realNow startTime endTime.
Proof.
  assert (H : forall r1 r2,
             Js.getHours tz r1 = Js.getHours tz r2 ->
             Js.getMinutes tz r1 = Js.getMinutes tz r2 ->
             Js.getSeconds tz r1 = Js.getSeconds tz r2 ->
             Sim.liveStep tz r1 startTime endTime
             = Sim.liveStep tz r2 startTime endTime).
  { intros r1 r2 Hh Hm Hs. unfold Sim.liveStep, Sim.liveTarget.
    now rewrite Hh, Hm, Hs. }
  revert H. intros H Hday Hms.
  split; apply H;
    unfold Js.getHours, Js.getMinutes, Js.getSeconds, Js.getMilliseconds,
      Js.localTime, Js.msPerDay in *;
    rewrite ?Hday, ?Hms;
    change (24 * 60 * 60 * 1000)%Z with 86400000%Z;
    Z.div_mod_to_equations; lia.
Qed.

Lemma live_wall_clock_periodic_witness :
  Js.newYork2024 (1730695500123 + 86400000)%Z true
  = Js.newYork2024 1730695500123%Z true
  /\ Sim.liveStep Js.newYork2024 (1730695500123 + 86400000)
                  1730608200000 1730694600000
     = Sim.liveStep Js.newYork2024 1730695500123
                    1730608200000 1730694600000.
Proof.
  split; [reflexivity|].
  destruct (live_wall_clock_periodic Js.newYork2024 1730695500123
              1730608200000 1730694600000) as [H _];
    [reflexivity|reflexivity|exact H].
Defined.

Section NoiseShape.
Import Sim.
Variable random : nat -> Q.
Variable fl : Q -> Q.

Lemma perturb_keeps_key (lastPoint : Row) (i : nat) :
  timestamp (fst (perturb random fl lastPoint i)) = timestamp lastPoint
  /\ cow_id (fst (perturb random fl lastPoint i)) = cow_id lastPoint.
Proof.
  cbv beta iota delta [perturb bind noise draw ret].
  repeat match goal with
         | |- context [jitter ?r ?f ?w ?o ?j] =>
             destruct (jitter r f w o j)
         end.
  split; reflexivity.
Qed.

Lemma addNoise_shape (sliced : list Row) (i : nat) :
  map timestamp (fst (addNoise random fl sliced i)) = map timestamp sliced
  /\ map cow_id (fst (addNoise random fl sliced i)) = map cow_id sliced
  /\ removelast (fst (addNoise random fl sliced i)) = removelast sliced.
Proof.
  induction sliced as [|lastPoint front _] using rev_ind.
  - repeat split.
  - rewrite addNoise_last.
    destruct (perturb_keeps_key lastPoint i) as [Ht Hc].
    rewrite !map_app, !removelast_last. simpl. now rewrite Ht, Hc.
Qed.
End NoiseShape.

(** X12.  The noise never changes which rows are shown: the published
    window has the timestamps and cow ids of the slice, in the same order,
    and all rows but the last are those of the slice; in REPLAY mode the
    slice is published as it is and [Math.random] is not called. *)
Theorem noise_keeps_rows (random : nat -> Q) (fl : Q -> Q) (isLive : bool)
        (replaySpeed : Q) (fullData : list Sim.Row) (tz : Js.Zone)
        (realNow startTime endTime : Z) (now : Q) (i : nat) :
  let result := Sim.tick random fl isLive replaySpeed fullData tz realNow
                         startTime endTime now i in
  let published := Sim.currentData (snd (fst result)) in
  let window :=
    Sim.slice fullData
      (Sim.advance isLive replaySpeed tz realNow startTime endTime now) in
  map Sim.timestamp published = map Sim.timestamp window
  /\ map Sim.cow_id published = map Sim.cow_id window
  /\ removelast published = removelast window
  /\ (isLive = false -> published = window /\ snd result = i).
Proof.
  intros result published window. subst result published window.
  destruct isLive.
  - rewrite tick_live.
    destruct (addNoise_shape random fl
                (Sim.slice fullData
                   (Sim.advance true replaySpeed tz realNow startTime
                                endTime now)) i) as (H1 & H2 & H3).
    repeat split; try assumption; discriminate.
  - rewrite tick_replay. cbn [fst snd Sim.currentData].
    repeat split; reflexivity.
Qed.

(** X13.  A change of dataset keeps a running clock where it is, even
    outside the new range; [resetSimulation] then puts it at the new start
    and publishes that time with an empty window, unless the start is the
    instant 0, in which case it does nothing. *)
Theorem reset_after_dataset_change (rows : list Sim.Row) (r : Sim.Refs)
        (t : Q) :
  rows <> [] -> Sim.timeRef r = Some t -> ~ t == 0 ->
  let r1 := Sim.initRange rows r in
  Sim.timeRef r1 = Some t
  /\ exists lo, Sim.startTimeRef r1 = Some lo
       /\ Sim.resetSimulation r1
          = (if (lo =? 0)%Z then (r1, None)
             else (Sim.mkRefs (Some (inject_Z lo)) (Some lo)
                              (Sim.endTimeRef r1), Some (lo, []))).
Proof.
  intros Hne Ht Hnz r1.
  destruct (initRange_isRange rows r Hne) as (lo & hi & _ & Hs & He & _).
  fold r1 in Hs, He. split.
  - subst r1. unfold Sim.initRange.
    destruct (map Sim.timestamp rows) as [|x xs]; [exact Ht|].
    simpl. rewrite Ht. simpl. unfold Js.Qeqb.
    destruct (Qeq_bool t 0) eqn:E; [|reflexivity].
    apply Qeq_bool_iff in E. contradiction.
  - exists lo. split; [exact Hs|].
    unfold Sim.resetSimulation. rewrite Hs. simpl.
    destruct (lo =? 0)%Z; reflexivity.
Qed.

Lemma reset_after_dataset_change_witness :
  [Sim.exampleRow 1733054400000] <> []
  /\ Sim.timeRef (Sim.mkRefs (Some 5) None None) = Some 5 /\ ~ 5 == 0
  /\ Sim.timeRef (Sim.initRange [Sim.exampleRow 1733054400000]
                                (Sim.mkRefs (Some 5) None None))
     = Some 5.
Proof.
  split; [discriminate|]. split; [reflexivity|]. split; [discriminate|].
  apply (reset_after_dataset_change [Sim.exampleRow 1733054400000]
           (Sim.mkRefs (Some 5) None None) 5);
    [discriminate|reflexivity|discriminate].
Defined.

(** ** Further facts on GanttChart *)

Section GanttMore.
Import Gantt.
Local Open Scope Z_scope.

Lemma blocksOf_runs (dataPoints : list Point) :
  exists runs, Forall2 covers (blocksOf dataPoints) runs
               /\ concat runs = sortedData dataPoints.
Proof.
  unfold blocksOf. pose proof (sortedData_sorted dataPoints) as Hs.
  destruct (sortedData dataPoints) as [|first rest].
  - exists []. split; [constructor|reflexivity].
  - apply StronglySorted_inv in Hs as [Hs Hf].
    destruct (loop_covers rest (openBlock first) [first])
      as (runs & Hcat & Hall); [|exact Hf|exact Hs|].
    { split; [|split; reflexivity].
      constructor; [simpl; repeat split; lia|constructor]. }
    exists runs. split; [exact Hall|exact Hcat].
Qed.

Lemma sortedData_in (dataPoints : list Point) (p : Point) :
  In p (sortedData dataPoints) <-> In p dataPoints.
Proof.
  split; apply Permutation_in;
    [apply sort_perm|symmetry; apply sort_perm].
Qed.

Lemma covers_ends (b : Block) (run : list Point) :
  covers b run ->
  exists first last,
    In first run /\ In last run
    /\ animalId first = b_animalId b /\ state first = b_state b
    /\ timestamp first = b_start b /\ timestamp last = b_end b.
Proof.
  intros (Hall & Hhd & Hlast). rewrite Forall_forall in Hall.
  destruct run as [|first run']; [discriminate|].
  destruct (rev (first :: run')) as [|last rl] eqn:E; [discriminate|].
  assert (Hl : In last (first :: run')).
  { apply in_rev. rewrite E. now left. }
  exists first, last. simpl in Hhd, Hlast.
  destruct (Hall first (or_introl eq_refl)) as (H1 & H2 & _).
  repeat split; try assumption; [now left|congruence|congruence].
Qed.

Lemma runs_length (blocks : list Block) (runs : list (list Point)) :
  Forall2 covers blocks runs ->
  (List.length blocks <= List.length (concat runs))%nat.
Proof.
  induction 1 as [|b run blocks runs Hc _ IH]; simpl; [lia|].
  rewrite length_app. destruct Hc as (_ & Hhd & _).
  destruct run; [discriminate|]. simpl. lia.
Qed.

Lemma last_cons {A} (x d : A) (l : list A) : last (x :: l) d = last l x.
Proof.
  revert x d. induction l as [|y l IH]; intros x d; [reflexivity|].
  change (last (x :: y :: l) d) with (last (y :: l) d).
  now rewrite (IH y d), (IH y x).
Qed.

Lemma last_split {A} (l : list A) :
  forall x, exists l', x :: l = l' ++ [last l x].
Proof.
  induction l as [|y l IH]; intros x.
  - now exists [].
  - destruct (IH y) as (l' & Hl'). exists (x :: l').
    rewrite last_cons. simpl. now rewrite <- Hl'.
Qed.

Lemma hd_rev_last {A} (l : list A) (d : A) :
  l <> [] -> hd_error (rev l) = Some (last l d).
Proof.
  induction l as [|z l _] using rev_ind; [contradiction|].
  intros _. now rewrite rev_app_distr, last_last.
Qed.

Lemma loop_nonempty points cur : loop [] cur points <> [].
Proof.
  destruct (loop_head points cur) as (b & tl & -> & _). discriminate.
Qed.

Lemma loop_first_start points : forall cur,
  option_map b_start (hd_error (loop [] cur points)) = Some (b_start cur).
Proof.
  induction points as [|p rest IH]; intros cur; [reflexivity|].
  destruct (breaks p cur) eqn:E.
  - now rewrite loop_break.
  - rewrite loop_extend by exact E. now rewrite IH.
Qed.

Lemma loop_last_end points : forall cur,
  option_map b_end (hd_error (rev (loop [] cur points)))
  = Some (last (map timestamp points) (b_end cur)).
Proof.
  induction points as [|p rest IH]; intros cur; [reflexivity|].
  simpl map. rewrite last_cons.
  destruct (breaks p cur) eqn:E.
  - rewrite loop_break by exact E.
    rewrite (hd_rev_last _ cur) by discriminate.
    rewrite last_cons.
    rewrite <- (hd_rev_last _ cur) by apply loop_nonempty.
    now rewrite IH.
  - rewrite loop_extend by exact E. now rewrite IH.
Qed.

Lemma pointLe_refl (p : Point) : pointLe p p.
Proof. right. split; [reflexivity|lia]. Qed.

Lemma pointLe_antisym (a b : Point) :
  pointLe a b -> pointLe b a ->
  animalId a = animalId b /\ timestamp a = timestamp b.
Proof.
  intros [H1|[H1 T1]] [H2|[H2 T2]].
  - now apply string_lt_asym in H1.
  - rewrite H2 in H1. now apply string_lt_irrefl in H1.
  - rewrite H1 in H2. now apply string_lt_irrefl in H2.
  - split; [exact H1|lia].
Qed.

Lemma sorted_perm_unique {A} (R : A -> A -> Prop) (l1 : list A) :
  forall l2,
    StronglySorted R l1 -> StronglySorted R l2 -> Permutation l1 l2 ->
    (forall a b, In a l1 -> In b l1 -> R a b -> R b a -> a = b) ->
    l1 = l2.
Proof.
  induction l1 as [|a l1 IH]; intros l2 S1 S2 Hp Hanti.
  - apply Permutation_nil in Hp. now subst.
  - destruct l2 as [|b l2].
    { symmetry in Hp. now apply Permutation_nil in Hp. }
    apply StronglySorted_inv in S1 as [S1 Ha].
    apply StronglySorted_inv in S2 as [S2 Hb].
    rewrite Forall_forall in Ha, Hb.
    assert (Eab : a = b).
    { assert (Hain : In a (b :: l2))
        by (eapply Permutation_in; [exact Hp|now left]).
      assert (Hbin : In b (a :: l1))
        by (eapply Permutation_in; [symmetry; exact Hp|now left]).
      destruct Hain as [->|Hain]; [reflexivity|].
      destruct Hbin as [->|Hbin]; [reflexivity|].
      apply Hanti; [now left|now right|now apply Ha|now apply Hb]. }
    subst b. f_equal. apply IH; try assumption.
    + now apply Permutation_cons_inv in Hp.
    + intros x y Hx Hy. apply Hanti; now right.
Qed.

Lemma NoDup_map_inj {A B} (f : A -> B) (l : list A) (a b : A) :
  NoDup (map f l) -> In a l -> In b l -> f a = f b -> a = b.
Proof.
  induction l as [|x l IH]; simpl; intros Hnd Ha Hb Hf; [contradiction|].
  apply NoDup_cons_iff in Hnd as [Hx Hnd].
  destruct Ha as [->|Ha], Hb as [->|Hb]; auto.
  - exfalso. apply Hx. rewrite Hf. now apply in_map.
  - exfalso. apply Hx. rewrite <- Hf. now apply in_map.
Qed.
Lemma blocks_from_samples (dataPoints : list Point) (b : Block) :
  In b (blocksOf dataPoints) ->
  exists first last,
    In first dataPoints /\ In last dataPoints
    /\ animalId first = b_animalId b /\ state first = b_state b
    /\ timestamp first = b_start b /\ timestamp last = b_end b.
Proof.
  destruct (blocksOf_runs dataPoints) as (runs & Hall & Hcat).
  assert (Hsub : forall p, In p (concat runs) -> In p dataPoints).
  { intros p Hp. rewrite Hcat in Hp. now apply sortedData_in. }
  clear Hcat. revert b.
  induction Hall as [|b0 run blocks runs Hc _ IH];
    intros b Hb; [contradiction|].
  destruct Hb as [<-|Hb].
  - destruct (covers_ends _ _ Hc) as (f & l & Hf & Hl & H).
    exists f, l.
    split; [apply Hsub; simpl; apply in_or_app; now left|].
    split; [apply Hsub; simpl; apply in_or_app; now left|exact H].
  - apply IH; [|exact Hb]. intros p Hp. apply Hsub. simpl.
    apply in_or_app. now right.
Qed.

Lemma filter_three (blocks : list Block) :
  Forall (fun b => 0 <= b_state b <= 2) blocks ->
  (List.length (filter (fun b => (b_state b =? 0)%Z) blocks)
   + List.length (filter (fun b => (b_state b =? 1)%Z) blocks)
   + List.length (filter (fun b => (b_state b =? 2)%Z) blocks)
   = List.length blocks)%nat.
Proof.
  induction 1 as [|b l Hb _ IH]; [reflexivity|]. simpl.
  destruct (Z.eqb_spec (b_state b) 0), (Z.eqb_spec (b_state b) 1),
    (Z.eqb_spec (b_state b) 2); simpl; lia.
Qed.

Lemma datasets_total (isAll : bool) (dataPoints : list Point) :
  Forall (fun p => 0 <= state p <= 2) dataPoints ->
  let '(lying, standing, eating) := datasets isAll (blocksOf dataPoints) in
  (List.length lying + List.length standing + List.length eating
   = List.length (blocksOf dataPoints))%nat.
Proof.
  intros Hst. unfold datasets, barsOf. rewrite !length_map.
  apply filter_three. apply Forall_forall. intros b Hb.
  destruct (blocks_from_samples _ _ Hb) as (f & _ & Hf & _ & _ & Hs & _).
  rewrite Forall_forall in Hst. rewrite <- Hs. now apply Hst.
Qed.
End GanttMore.

(** X14.  There are never more blocks than samples, there is no block
    exactly when there is no sample, and every block starts at a sample of
    its animal and state and ends at a sample of the input. *)
Theorem block_count (dataPoints : list Gantt.Point) :
  (List.length (Gantt.blocksOf dataPoints) <= List.length dataPoints)%nat
  /\ (Gantt.blocksOf dataPoints = [] <-> dataPoints = [])
  /\ (forall b, In b (Gantt.blocksOf dataPoints) ->
        exists first last,
          In first dataPoints /\ In last dataPoints
          /\ Gantt.animalId first = Gantt.b_animalId b
          /\ Gantt.state first = Gantt.b_state b
          /\ Gantt.timestamp first = Gantt.b_start b
          /\ Gantt.timestamp last = Gantt.b_end b).
Proof.
  destruct (blocksOf_runs dataPoints) as (runs & Hall & Hcat).
  split; [|split].
  - rewrite <- (sort_length Gantt.compareFn dataPoints).
    fold (Gantt.sortedData dataPoints). rewrite <- Hcat.
    now apply runs_length.
  - unfold Gantt.blocksOf. split.
    + destruct (Gantt.sortedData dataPoints) as [|first rest] eqn:E.
      * intros _. now apply sort_nil_inv in E.
      * intros H. now apply loop_nonempty in H.
    + intros ->. reflexivity.
  - intros b. apply blocks_from_samples.
Qed.

(** X15.  The blocks do not depend on the order in which the samples are
    given, as long as no two samples have the same animal and timestamp. *)
Theorem blocks_order_independent (dataPoints dataPoints' : list Gantt.Point) :
  Permutation dataPoints dataPoints' ->
  NoDup (map (fun p => (Gantt.animalId p, Gantt.timestamp p)) dataPoints) ->
  Gantt.blocksOf dataPoints = Gantt.blocksOf dataPoints'.
Proof.
  intros Hp Hnd. unfold Gantt.blocksOf.
  replace (Gantt.sortedData dataPoints') with (Gantt.sortedData dataPoints);
    [reflexivity|].
  apply sorted_perm_unique with (R := Gantt.pointLe).
  - apply sortedData_sorted.
  - apply sortedData_sorted.
  - unfold Gantt.sortedData.
    rewrite (sort_perm Gantt.compareFn dataPoints).
    rewrite (sort_perm Gantt.compareFn dataPoints'). exact Hp.
  - intros a b Ha Hb Hab Hba.
    apply (proj1 (sortedData_in _ _)) in Ha, Hb.
    destruct (pointLe_antisym a b Hab Hba) as [E1 E2].
    apply (NoDup_map_inj _ _ _ _ Hnd Ha Hb). now rewrite E1, E2.
Qed.

Lemma blocks_order_independent_witness :
  Permutation [Gantt.mkPoint 10 0 "A"; Gantt.mkPoint 0 0 "A"]
              [Gantt.mkPoint 0 0 "A"; Gantt.mkPoint 10 0 "A"]
  /\ NoDup (map (fun p => (Gantt.animalId p, Gantt.timestamp p))
                [Gantt.mkPoint 10 0 "A"; Gantt.mkPoint 0 0 "A"])
  /\ Gantt.blocksOf [Gantt.mkPoint 10 0 "A"; Gantt.mkPoint 0 0 "A"]
     = Gantt.blocksOf [Gantt.mkPoint 0 0 "A"; Gantt.mkPoint 10 0 "A"].
Proof.
  assert (Hp : Permutation [Gantt.mkPoint 10 0 "A"; Gantt.mkPoint 0 0 "A"]
                           [Gantt.mkPoint 0 0 "A"; Gantt.mkPoint 10 0 "A"])
    by apply perm_swap.
  assert (Hn : NoDup (map (fun p => (Gantt.animalId p, Gantt.timestamp p))
                          [Gantt.mkPoint 10 0 "A"; Gantt.mkPoint 0 0 "A"])).
  { simpl. repeat constructor; simpl; intuition discriminate. }
  split; [exact Hp|]. split; [exact Hn|].
  exact (blocks_order_independent _ _ Hp Hn).
Defined.

(** X16.  The time bounds computed for the chart are the start of the
    first block and the end of the last one: the timestamp of the sample
    that comes first, and of the one that comes last, in the order by
    animal and then time.  With several animals these need not be the
    earliest and latest timestamps; when all samples belong to one animal
    they are. *)
Theorem chart_bounds (dataPoints : list Gantt.Point) :
  dataPoints <> [] ->
  exists first last,
    In first dataPoints /\ In last dataPoints
    /\ Gantt.calculatedMin (Gantt.blocksOf dataPoints)
       = Some (Gantt.timestamp first)
    /\ Gantt.calculatedMax (Gantt.blocksOf dataPoints)
       = Some (Gantt.timestamp last)
    /\ (forall p, In p dataPoints ->
          Gantt.pointLe first p /\ Gantt.pointLe p last)
    /\ ((forall p, In p dataPoints ->
           Gantt.animalId p = Gantt.animalId first) ->
        forall p, In p dataPoints ->
          (Gantt.timestamp first <= Gantt.timestamp p
           <= Gantt.timestamp last)%Z).
Proof.
  intros Hne.
  pose proof (sortedData_sorted dataPoints) as Hs.
  pose proof (sortedData_in dataPoints) as Hin.
  unfold Gantt.blocksOf, Gantt.calculatedMin, Gantt.calculatedMax.
  destruct (Gantt.sortedData dataPoints) as [|first rest] eqn:E.
  { now apply sort_nil_inv in E. }
  set (lastP := last rest first).
  destruct (last_split rest first) as (l' & Hz). fold lastP in Hz.
  assert (Hlast : In lastP (first :: rest)).
  { rewrite Hz. apply in_or_app. right. now left. }
  assert (Hle : forall p, In p (first :: rest) ->
                          Gantt.pointLe first p /\ Gantt.pointLe p lastP).
  { intros p Hp. split.
    - apply StronglySorted_inv in Hs as [_ Hf].
      destruct Hp as [<-|Hp]; [apply pointLe_refl|].
      rewrite Forall_forall in Hf. now apply Hf.
    - rewrite Hz in Hs, Hp.
      apply in_app_or in Hp as [Hp|[<-|[]]]; [|apply pointLe_refl].
      eapply StronglySorted_app_inv; [exact Hs|exact Hp|now left]. }
  exists first, lastP.
  split; [apply Hin; now left|]. split; [now apply Hin|].
  split; [apply loop_first_start|].
  split.
  { rewrite loop_last_end. simpl. unfold lastP.
    clear. revert first. induction rest as [|r rest IH]; intros first;
      [reflexivity|].
    simpl map. now rewrite !last_cons, IH. }
  split; [intros p Hp; apply Hle; now apply Hin|].
  intros Hsame p Hp.
  destruct (Hle p (proj2 (Hin p) Hp)) as [[H1|[_ H1]] [H2|[_ H2]]].
  - rewrite (Hsame p Hp) in H1. now apply string_lt_irrefl in H1.
  - rewrite (Hsame p Hp) in H1. now apply string_lt_irrefl in H1.
  - rewrite (Hsame p Hp), (Hsame lastP) in H2.
    + now apply string_lt_irrefl in H2.
    + now apply Hin.
  - lia.
Qed.

Lemma chart_bounds_witness :
  [Gantt.mkPoint 50 0 "A"; Gantt.mkPoint 10 1 "B"] <> []
  /\ exists first last,
       In first [Gantt.mkPoint 50 0 "A"; Gantt.mkPoint 10 1 "B"]
       /\ In last [Gantt.mkPoint 50 0 "A"; Gantt.mkPoint 10 1 "B"]
       /\ Gantt.calculatedMin
            (Gantt.blocksOf [Gantt.mkPoint 50 0 "A"; Gantt.mkPoint 10 1 "B"])
          = Some (Gantt.timestamp first)
       /\ Gantt.calculatedMax
            (Gantt.blocksOf [Gantt.mkPoint 50 0 "A"; Gantt.mkPoint 10 1 "B"])
          = Some (Gantt.timestamp last).
Proof.
  split; [discriminate|].
  destruct (chart_bounds [Gantt.mkPoint 50 0 "A"; Gantt.mkPoint 10 1 "B"])
    as (first & last & H1 & H2 & H3 & H4 & _); [discriminate|].
  exists first, last. auto.
Defined.

(** X17.  When every sample has state 0, 1 or 2, each block is drawn as
    exactly one bar: the three datasets together have as many bars as
    there are blocks. *)
Theorem datasets_partition (isAll : bool) (dataPoints : list Gantt.Point) :
  Forall (fun p => (0 <= Gantt.state p <= 2)%Z) dataPoints ->
  let '(lying, standing, eating) :=
    Gantt.datasets isAll (Gantt.blocksOf dataPoints) in
  (List.length lying + List.length standing + List.length eating
   = List.length (Gantt.blocksOf dataPoints))%nat.
Proof. apply datasets_total. Qed.

Lemma datasets_partition_witness :
  Forall (fun p => (0 <= Gantt.state p <= 2)%Z)
         [Gantt.mkPoint 0 0 "A"; Gantt.mkPoint 10 2 "A"]
  /\ let '(lying, standing, eating) :=
       Gantt.datasets true
         (Gantt.blocksOf [Gantt.mkPoint 0 0 "A"; Gantt.mkPoint 10 2 "A"]) in
     (List.length lying + List.length standing + List.length eating
      = List.length
          (Gantt.blocksOf [Gantt.mkPoint 0 0 "A"; Gantt.mkPoint 10 2 "A"]))%nat.
Proof.
  assert (H : Forall (fun p => (0 <= Gantt.state p <= 2)%Z)
                     [Gantt.mkPoint 0 0 "A"; Gantt.mkPoint 10 2 "A"])
    by (repeat constructor; simpl; discriminate).
  split; [exact H|].
  exact (datasets_partition true
           [Gantt.mkPoint 0 0 "A"; Gantt.mkPoint 10 2 "A"] H).
Defined.

(** ** Facts on PostureView *)

Section PostureFacts.
Import Posture.
Local Open Scope Q_scope.

Lemma Qeqb_true (a b : Q) : Js.Qeqb a b = true <-> a == b.
Proof. apply Qeq_bool_iff. Qed.

Lemma Qeqb_false (a b : Q) : Js.Qeqb a b = false <-> ~ a == b.
Proof.
  unfold Js.Qeqb. split.
  - intros H E. apply Qeq_bool_iff in E. congruence.
  - intros H. destruct (Qeq_bool a b) eqn:E; [|reflexivity].
    apply Qeq_bool_iff in E. contradiction.
Qed.

Lemma mappedState_cases (row : Sim.Row) :
  let l := Sim.pct_lying row in
  let s := Sim.pct_standing row in
  let e := Sim.pct_eating row in
  (mappedState row = 0%Z /\ s <= l /\ e <= l)
  \/ (mappedState row = 1%Z /\ l < s /\ e <= s)
  \/ (mappedState row = 2%Z /\ l < e /\ s < e).
Proof.
  intros l s e. unfold mappedState. fold l s e.
  assert (HM : l <= Qmax (Qmax l s) e /\ s <= Qmax (Qmax l s) e
               /\ e <= Qmax (Qmax l s) e
               /\ (Qmax (Qmax l s) e == l \/ Qmax (Qmax l s) e == s
                   \/ Qmax (Qmax l s) e == e)).
  { destruct (Q.max_spec l s) as [[H1 E1]|[H1 E1]];
      destruct (Q.max_spec (Qmax l s) e) as [[H2 E2]|[H2 E2]];
      rewrite E2, ?E1 in *; repeat split; try lra; auto;
      try (right; right; reflexivity); try (left; reflexivity);
      try (right; left; reflexivity). }
  set (M := Qmax (Qmax l s) e) in *. clearbody M.
  destruct HM as (Hl & Hs & He & Hor).
  destruct (Js.Qeqb M l) eqn:T1.
  { apply Qeqb_true in T1. left. split; [reflexivity|split; lra]. }
  apply Qeqb_false in T1.
  destruct (Js.Qeqb M s) eqn:T2.
  { apply Qeqb_true in T2. right. left.
    split; [reflexivity|split; lra]. }
  apply Qeqb_false in T2.
  destruct (Js.Qeqb M e) eqn:T3.
  { apply Qeqb_true in T3. right. right.
    split; [reflexivity|split; lra]. }
  apply Qeqb_false in T3. exfalso. destruct Hor as [H|[H|H]]; contradiction.
Qed.

Lemma mappedState_range (row : Sim.Row) :
  (0 <= mappedState row <= 2)%Z.
Proof.
  destruct (mappedState_cases row) as [[-> _]|[[-> _]|[-> _]]]; lia.
Qed.

Lemma stats_fold (rows : list Sim.Row) : forall st,
  let st' := fold_left (fun st row => bump st (mappedState row)) rows st in
  lying st' = (lying st + countState 0 (map toPoint rows))%nat
  /\ standing st' = (standing st + countState 1 (map toPoint rows))%nat
  /\ eating st' = (eating st + countState 2 (map toPoint rows))%nat.
Proof.
  unfold countState.
  induction rows as [|row rows IH]; intros st; simpl.
  - repeat split; lia.
  - destruct (IH (bump st (mappedState row))) as (H1 & H2 & H3).
    rewrite H1, H2, H3. unfold bump.
    pose proof (mappedState_range row) as Hr.
    destruct (Z.eqb_spec (mappedState row) 0) as [E0|E0].
    + rewrite E0. simpl. repeat split; lia.
    + destruct (Z.eqb_spec (mappedState row) 1) as [E1|E1].
      * rewrite E1. simpl. repeat split; lia.
      * assert (E2 : mappedState row = 2%Z) by lia.
        rewrite E2. simpl. repeat split; lia.
Qed.

Lemma countState_total (points : list Gantt.Point) :
  Forall (fun p => (0 <= Gantt.state p <= 2)%Z) points ->
  (countState 0 points + countState 1 points + countState 2 points
   = List.length points)%nat.
Proof.
  unfold countState. induction 1 as [|p l Hp _ IH]; [reflexivity|]. simpl.
  destruct (Z.eqb_spec (Gantt.state p) 0), (Z.eqb_spec (Gantt.state p) 1),
    (Z.eqb_spec (Gantt.state p) 2); simpl; lia.
Qed.
End PostureFacts.

(** X18.  The state given to a row is the largest of its lying, standing
    and eating shares, the walking share playing no part: 0 when lying is
    at least the other two, 1 when standing exceeds lying and is at least
    eating, 2 when eating exceeds both. *)
Theorem mapped_state_argmax (row : Sim.Row) :
  let l := Sim.pct_lying row in
  let s := Sim.pct_standing row in
  let e := Sim.pct_eating row in
  (Posture.mappedState row = 0%Z /\ s <= l /\ e <= l)
  \/ (Posture.mappedState row = 1%Z /\ l < s /\ e <= s)
  \/ (Posture.mappedState row = 2%Z /\ l < e /\ s < e).
Proof. apply mappedState_cases. Qed.

(** X19.  Processing a non-empty [liveData] yields one point per row of
    the selected animal (per row, for all animals), with the row's
    timestamp and cow id, and statistics that count these points by state:
    the three counters add up to the number of points.  An empty
    [liveData] updates nothing. *)
Theorem process_counts (liveData : list Sim.Row) (selectedAnimal : string) :
  Posture.process [] selectedAnimal = None
  /\ (liveData <> [] ->
      exists points stats,
        Posture.process liveData selectedAnimal = Some (points, stats)
        /\ points
           = map Posture.toPoint
                 (Posture.filteredData liveData selectedAnimal)
        /\ Posture.lying stats = Posture.countState 0 points
        /\ Posture.standing stats = Posture.countState 1 points
        /\ Posture.eating stats = Posture.countState 2 points
        /\ (Posture.lying stats + Posture.standing stats
            + Posture.eating stats = List.length points)%nat
        /\ (selectedAnimal <> "All Animals"%string ->
            forall p, In p points <->
              exists row, In row liveData
                          /\ Sim.cow_id row = selectedAnimal
                          /\ p = Posture.toPoint row)).
Proof.
  split; [reflexivity|]. intros Hne.
  destruct liveData as [|d0 rest]; [contradiction|].
  set (liveData := d0 :: rest).
  set (rows := Posture.filteredData liveData selectedAnimal).
  destruct (stats_fold rows (Posture.mkStats 0 0 0)) as (H1 & H2 & H3).
  simpl in H1, H2, H3.
  eexists _, _. split; [reflexivity|]. fold liveData rows.
  split; [reflexivity|].
  split; [exact H1|]. split; [exact H2|]. split; [exact H3|].
  split.
  - rewrite H1, H2, H3. apply countState_total.
    apply Forall_map, Forall_forall. intros row _.
    apply mappedState_range.
  - intros Hsel p. subst rows. unfold Posture.filteredData.
    destruct (String.eqb_spec selectedAnimal "All Animals");
      [contradiction|].
    rewrite in_map_iff. split.
    + intros (row & <- & Hrow). apply filter_In in Hrow as [Hin Heq].
      apply String.eqb_eq in Heq. exists row. auto.
    + intros (row & Hin & Heq & ->). exists row. split; [reflexivity|].
      apply filter_In. split; [exact Hin|]. now apply String.eqb_eq.
Qed.

Lemma process_counts_witness :
  Posture.process [] "COW_01" = None
  /\ ([Sim.exampleRow 1733011200000] <> [] ->
      exists points stats,
        Posture.process [Sim.exampleRow 1733011200000] "COW_01"
        = Some (points, stats)
        /\ points = map Posture.toPoint
                        (Posture.filteredData
                           [Sim.exampleRow 1733011200000] "COW_01")).
Proof.
  split; [reflexivity|]. intros H.
  destruct (process_counts [Sim.exampleRow 1733011200000] "COW_01")
    as (_ & K).
  destruct (K H) as (points & stats & H1 & H2 & _).
  exists points, stats. auto.
Defined.

(** X20.  Whatever the live rows are, the chart draws every block computed
    from the processed points: the points only carry the states 0, 1 and
    2, so the three datasets together hold one bar per block. *)
Theorem posture_chart_complete (liveData : list Sim.Row)
        (selectedAnimal : string) (isAll : bool)
        (points : list Gantt.Point) (stats : Posture.Stats) :
  Posture.process liveData selectedAnimal = Some (points, stats) ->
  Forall (fun p => (0 <= Gantt.state p <= 2)%Z) points
  /\ let '(lying, standing, eating) :=
       Gantt.datasets isAll (Gantt.blocksOf points) in
     (List.length lying + List.length standing + List.length eating
      = List.length (Gantt.blocksOf points))%nat.
Proof.
  intros H.
  assert (Hr : Forall (fun p => (0 <= Gantt.state p <= 2)%Z) points).
  { unfold Posture.process in H. destruct liveData; [discriminate|].
    injection H as <- _. apply Forall_map, Forall_forall. intros row _.
    apply mappedState_range. }
  split; [exact Hr|]. now apply datasets_total.
Qed.

Lemma posture_chart_complete_witness :
  exists points stats,
    Posture.process [Sim.exampleRow 1733011200000] "All Animals"
    = Some (points, stats)
    /\ Forall (fun p => (0 <= Gantt.state p <= 2)%Z) points.
Proof.
  eexists _, _. split; [reflexivity|].
  eapply (posture_chart_complete [Sim.exampleRow 1733011200000]
            "All Animals" true).
  reflexivity.
Defined.

(** ** Facts on OverviewView *)

Section ObjFacts.
Context {V : Type}.

Lemma get_in (o : list (string * V)) (k : string) (v : V) :
  Js.get o k = Some v -> In (k, v) o.
Proof.
  induction o as [|[k' v'] o IH]; simpl; [discriminate|].
  destruct (String.eqb_spec k k') as [->|_].
  - intros [= ->]. now left.
  - intros H. right. now apply IH.
Qed.

Lemma get_set_same (o : list (string * V)) (k : string) (v : V) :
  Js.get (Js.set o k v) k = Some v.
Proof.
  induction o as [|[k' v'] o IH]; simpl.
  - now rewrite String.eqb_refl.
  - destruct (String.eqb_spec k k') as [->|Hne]; simpl.
    + now rewrite String.eqb_refl.
    + destruct (String.eqb_spec k k'); [contradiction|exact IH].
Qed.

Lemma get_set_other (o : list (string * V)) (k k' : string) (v : V) :
  k' <> k -> Js.get (Js.set o k v) k' = Js.get o k'.
Proof.
  intros Hne. induction o as [|[k0 v0] o IH]; simpl.
  - destruct (String.eqb_spec k' k); [contradiction|reflexivity].
  - destruct (String.eqb_spec k k0) as [->|Hk]; simpl.
    + destruct (String.eqb_spec k' k0); [contradiction|reflexivity].
    + destruct (String.eqb_spec k' k0); [reflexivity|exact IH].
Qed.

Lemma set_in (o : list (string * V)) (k k' : string) (v v' : V) :
  In (k', v') (Js.set o k v) -> (k' = k /\ v' = v) \/ In (k', v') o.
Proof.
  induction o as [|[k0 v0] o IH]; simpl.
  - intros [[= <- <-]|[]]. now left.
  - destruct (String.eqb_spec k k0) as [->|Hk]; simpl.
    + intros [[= <- <-]|H]; [now left|right; now right].
    + intros [H|H]; [right; now left|].
      destruct (IH H) as [E|E]; [now left|right; now right].
Qed.

Lemma set_keys (o : list (string * V)) (k : string) (v : V) :
  NoDup (map fst o) -> NoDup (map fst (Js.set o k v)).
Proof.
  induction o as [|[k0 v0] o IH]; simpl; intros Hnd.
  - repeat constructor. intros [].
  - apply NoDup_cons_iff in Hnd as [Hk0 Hnd].
    destruct (String.eqb_spec k k0) as [->|Hk]; simpl.
    + now constructor.
    + constructor; [|now apply IH].
      intros Hin. apply in_map_iff in Hin as ([k1 v1] & E & Hin).
      simpl in E. subst k1. apply set_in in Hin as [[E _]|Hin].
      * now subst.
      * apply Hk0. apply in_map_iff. now exists (k0, v1).
Qed.
End ObjFacts.

Section OverviewFacts.
Import Overview.
Local Open Scope Z_scope.

(** What the object [latest] knows after the rows [seen]. *)
Let inv (o : list (string * Sim.Row)) (seen : list Sim.Row) : Prop :=
  NoDup (map fst o)
  /\ (forall k v, In (k, v) o ->
        Sim.cow_id v = k /\ In v seen /\ Js.inherited k = false)
  /\ (forall d, In d seen -> Js.inherited (Sim.cow_id d) = false ->
        exists v, Js.get o (Sim.cow_id d) = Some v
                  /\ Sim.timestamp d <= Sim.timestamp v).

Lemma inv_weaken o seen d : inv o seen ->
  (Js.inherited (Sim.cow_id d) = false ->
   exists v, Js.get o (Sim.cow_id d) = Some v
             /\ Sim.timestamp d <= Sim.timestamp v) ->
  inv o (d :: seen).
Proof.
  intros (Hnd & Hval & Hmax) Hd. split; [exact Hnd|]. split.
  - intros k v Hin. destruct (Hval k v Hin) as (H1 & H2 & H3).
    split; [exact H1|]. split; [now right|exact H3].
  - intros d' [<-|Hd']; [exact Hd|now apply Hmax].
Qed.

Lemma inv_set o seen d :
  inv o seen -> Js.inherited (Sim.cow_id d) = false ->
  (forall old, Js.get o (Sim.cow_id d) = Some old ->
               Sim.timestamp old < Sim.timestamp d) ->
  inv (Js.set o (Sim.cow_id d) d) (d :: seen).
Proof.
  intros (Hnd & Hval & Hmax) Hown Hold.
  split; [now apply set_keys|]. split.
  - intros k v Hin. apply set_in in Hin as [[-> ->]|Hin].
    + split; [reflexivity|]. split; [now left|exact Hown].
    + destruct (Hval k v Hin) as (H1 & H2 & H3).
      split; [exact H1|]. split; [now right|exact H3].
  - intros d' [<-|Hd'] Hd'own.
    + exists d. rewrite get_set_same. split; [reflexivity|lia].
    + destruct (Hmax d' Hd' Hd'own) as (v & Hv & Hle).
      destruct (string_dec (Sim.cow_id d') (Sim.cow_id d)) as [E|E].
      * exists d. rewrite E, get_set_same. split; [reflexivity|].
        rewrite E in Hv. specialize (Hold v Hv). lia.
      * exists v. rewrite get_set_other by exact E. auto.
Qed.

Lemma keepLatest_inv o seen d :
  inv o seen -> inv (keepLatest o d) (d :: seen).
Proof.
  intros H. unfold keepLatest.
  destruct (Js.get o (Sim.cow_id d)) as [old|] eqn:G.
  - destruct (Sim.timestamp old <? Sim.timestamp d) eqn:L.
    + apply Z.ltb_lt in L. apply inv_set; [exact H| |].
      * destruct H as (_ & Hval & _). apply get_in in G.
        now apply (Hval _ _ G).
      * intros old' E. rewrite G in E. injection E as <-. exact L.
    + apply Z.ltb_ge in L. apply inv_weaken; [exact H|].
      intros _. exists old. split; [exact G|exact L].
  - destruct (Js.inherited (Sim.cow_id d)) eqn:I.
    + apply inv_weaken; [exact H|]. intros Habs. congruence.
    + apply inv_set; [exact H|exact I|].
      intros old E. rewrite G in E. discriminate.
Qed.

Lemma fold_keepLatest_inv (liveData : list Sim.Row) : forall o seen,
  inv o seen ->
  exists seen', inv (fold_left keepLatest liveData o) seen'
                /\ (forall d, In d seen' <-> In d seen \/ In d liveData).
Proof.
  induction liveData as [|d l IH]; intros o seen H; simpl.
  - exists seen. split; [exact H|]. intros d. tauto.
  - destruct (IH _ _ (keepLatest_inv o seen d H)) as (seen' & H' & Hin).
    exists seen'. split; [exact H'|]. intros d'. rewrite Hin. simpl. tauto.
Qed.

Lemma latestData_inv (liveData : list Sim.Row) :
  exists o, latestData liveData = Js.values o /\ inv o liveData.
Proof.
  destruct (fold_keepLatest_inv liveData [] [])
    as (seen' & (H1 & H2 & H3) & Hin).
  { split; [constructor|]. split; intros; contradiction. }
  exists (fold_left keepLatest liveData []). split; [reflexivity|].
  split; [exact H1|]. split.
  - intros k v Hkv. destruct (H2 k v Hkv) as (E & Hs & Hi).
    split; [exact E|]. split; [|exact Hi].
    apply Hin in Hs as [[]|Hs]. exact Hs.
  - intros d Hd. apply H3, Hin. now right.
Qed.
End OverviewFacts.

(** X21.  [latestData] holds exactly one row per cow present in
    [liveData]: each of its rows is a row of [liveData], no two have the
    same cow id, and for every row of [liveData] it holds a row of the
    same cow that is at least as recent.  The one exception are cows whose
    id is the name of a property that every object inherits (such as
    [constructor]): they are never listed. *)
Theorem latest_per_cow (liveData : list Sim.Row) :
  let latest := Overview.latestData liveData in
  NoDup (map Sim.cow_id latest)
  /\ (forall l, In l latest ->
        In l liveData /\ Js.inherited (Sim.cow_id l) = false)
  /\ (forall d, In d liveData -> Js.inherited (Sim.cow_id d) = false ->
        exists l, In l latest /\ Sim.cow_id l = Sim.cow_id d
                  /\ (Sim.timestamp d <= Sim.timestamp l)%Z).
Proof.
  intros latest. subst latest.
  destruct (latestData_inv liveData) as (o & -> & Hnd & Hval & Hmax).
  unfold Js.values. split; [|split].
  - rewrite map_map.
    replace (map (fun x => Sim.cow_id (snd x)) o) with (map fst o);
      [exact Hnd|].
    apply map_ext_in. intros [k v] Hin. simpl.
    symmetry. now apply Hval.
  - intros l Hl. apply in_map_iff in Hl as ([k v] & <- & Hin).
    destruct (Hval k v Hin) as (E & Hs & Hi). simpl.
    split; [exact Hs|]. now rewrite E.
  - intros d Hd Hown. destruct (Hmax d Hd Hown) as (v & Hv & Hle).
    exists v. apply get_in in Hv.
    split; [apply in_map_iff; now exists (Sim.cow_id d, v)|].
    split; [now apply (Hval _ _ Hv)|exact Hle].
Qed.

Section DonutFacts.
Import Overview.
Local Open Scope Q_scope.

Let total (c : Counts) : nat := (lying c + standing c + walking c + eating c)%nat.

Lemma tally_total (c : Counts) (d : Sim.Row) :
  total (tally c d) = S (total c).
Proof.
  unfold tally.
  set (l := Sim.pct_lying d). set (s := Sim.pct_standing d).
  set (w := Sim.pct_walking d). set (e := Sim.pct_eating d).
  assert (HM : Qmax (Qmax (Qmax l s) w) e == l
               \/ Qmax (Qmax (Qmax l s) w) e == s
               \/ Qmax (Qmax (Qmax l s) w) e == w
               \/ Qmax (Qmax (Qmax l s) w) e == e).
  { destruct (Q.max_spec l s) as [[_ E1]|[_ E1]];
      destruct (Q.max_spec (Qmax l s) w) as [[_ E2]|[_ E2]];
      destruct (Q.max_spec (Qmax (Qmax l s) w) e) as [[_ E3]|[_ E3]];
      rewrite E3, ?E2, ?E1; auto 6 with qarith. }
  set (M := Qmax (Qmax (Qmax l s) w) e) in *. clearbody M.
  destruct (Js.Qeqb M l) eqn:T1; [unfold total; simpl; lia|].
  destruct (Js.Qeqb M s) eqn:T2; [unfold total; simpl; lia|].
  destruct (Js.Qeqb M w) eqn:T3; [unfold total; simpl; lia|].
  destruct (Js.Qeqb M e) eqn:T4; [unfold total; simpl; lia|].
  apply Qeqb_false in T1, T2, T3, T4.
  destruct HM as [H|[H|[H|H]]]; contradiction.
Qed.

Lemma donut_fold (rows : list Sim.Row) : forall c,
  total (fold_left tally rows c) = (total c + List.length rows)%nat.
Proof.
  induction rows as [|d rows IH]; intros c; simpl; [lia|].
  rewrite IH, tally_total. lia.
Qed.
End DonutFacts.

(** X22.  Every cow is counted once in the doughnut: the four counters
    (lying, standing, walking, eating) add up to the number of rows of
    [latestData]. *)
Theorem donut_counts_every_cow (latestData : list Sim.Row) :
  let c := Overview.donutData latestData in
  (Overview.lying c + Overview.standing c + Overview.walking c
   + Overview.eating c = List.length latestData)%nat.
Proof.
  intros c. subst c. unfold Overview.donutData.
  pose proof (donut_fold latestData (Overview.mkCounts 0 0 0 0)) as H.
  simpl in H. exact H.
Qed.

(** ** Facts on useCowData and DetailsPanel *)

Section CowListFacts.
Local Open Scope Z_scope.

Lemma existsb_eqb (x : string) (seen : list string) :
  existsb (String.eqb x) seen = true <-> In x seen.
Proof.
  rewrite existsb_exists. split.
  - intros (y & Hy & E). apply String.eqb_eq in E. now subst.
  - intros H. exists x. split; [exact H|apply String.eqb_refl].
Qed.

Lemma setOf_fold (xs : list string) : forall seen,
  NoDup seen ->
  let r := fold_left (fun seen x => if existsb (String.eqb x) seen
                                    then seen else seen ++ [x]) xs seen in
  NoDup r /\ (forall x, In x r <-> In x seen \/ In x xs).
Proof.
  induction xs as [|y xs IH]; intros seen Hnd; simpl.
  - split; [exact Hnd|]. intros x. tauto.
  - destruct (existsb (String.eqb y) seen) eqn:E.
    + destruct (IH seen Hnd) as [H1 H2]. split; [exact H1|].
      intros x. rewrite H2. apply existsb_eqb in E.
      split; [tauto|]. intros [H|[<-|H]]; auto.
    + assert (Hy : ~ In y seen).
      { intros H. apply existsb_eqb in H. congruence. }
      destruct (IH (seen ++ [y])) as [H1 H2].
      { apply NoDup_app; [exact Hnd|repeat constructor; intros []|].
        intros a Ha [<-|[]]. contradiction. }
      split; [exact H1|]. intros x. rewrite H2, in_app_iff. simpl. tauto.
Qed.

Lemma defaultCompare_le (a b : string) :
  Js.defaultCompare a b <= 0 <-> String_as_OT.lt a b \/ a = b.
Proof.
  unfold Js.defaultCompare.
  destruct (String.compare a b) eqn:E.
  - apply String_as_OT.cmp_eq in E. split; [auto|lia].
  - apply String_as_OT.cmp_lt in E. split; [auto|lia].
  - split; [lia|]. intros [H|H].
    + apply String_as_OT.cmp_lt in H. unfold String_as_OT.cmp in H.
      congruence.
    + apply String_as_OT.cmp_eq in H. unfold String_as_OT.cmp in H.
      congruence.
Qed.

Lemma StronglySorted_strict {A} (R : A -> A -> Prop) (l : list A) :
  StronglySorted R l -> NoDup l ->
  StronglySorted (fun a b => R a b /\ a <> b) l.
Proof.
  induction 1 as [|x l Hs IH Hx]; intros Hnd; constructor.
  - apply IH. now apply NoDup_cons_iff in Hnd.
  - apply NoDup_cons_iff in Hnd as [Hx' _].
    rewrite Forall_forall in *. intros y Hy. split; [now apply Hx|].
    intros ->. contradiction.
Qed.
End CowListFacts.

(** X23.  The list of cows contains each non-empty cow id of the data
    exactly once, in strictly ascending string order. *)
Theorem unique_cows_sorted (rawData : list Sim.Row) :
  let cows := CowData.uniqueCows rawData in
  NoDup cows
  /\ StronglySorted String_as_OT.lt cows
  /\ (forall id, In id cows <->
        id <> ""%string
        /\ exists r, In r rawData /\ Sim.cow_id r = id).
Proof.
  intros cows. subst cows. unfold CowData.uniqueCows, Js.setOf.
  destruct (setOf_fold (map Sim.cow_id rawData) [] (NoDup_nil _))
    as [Hnd Hin].
  set (ids := fold_left _ (map Sim.cow_id rawData) []) in *.
  set (kept := filter (fun id => negb (String.eqb id "")) ids).
  assert (Hk : NoDup kept) by now apply NoDup_filter.
  pose proof (sort_perm Js.defaultCompare kept) as Hp.
  assert (Hs : NoDup (Js.sort Js.defaultCompare kept)).
  { eapply Permutation_NoDup; [symmetry; exact Hp|exact Hk]. }
  split; [exact Hs|]. split.
  - apply StronglySorted_weaken
      with (R := fun a b => (Js.defaultCompare a b <= 0)%Z /\ a <> b).
    + intros a b _ _ [H Hne]. apply defaultCompare_le in H as [H|H];
        [exact H|contradiction].
    + apply StronglySorted_strict; [|exact Hs].
      apply sort_sorted.
      * intros x y. rewrite !defaultCompare_le.
        destruct (string_lt_trichotomy x y) as [H|[H|H]]; auto.
      * intros x y z. rewrite !defaultCompare_le.
        intros [H1 | ->] [H2 | ->]; auto.
        left. now apply String_as_OT.lt_trans with y.
  - intros id. split.
    + intros H. eapply Permutation_in in H; [|exact Hp].
      apply filter_In in H as [H Hne]. apply negb_true_iff in Hne.
      apply String.eqb_neq in Hne. split; [exact Hne|].
      apply Hin in H as [[]|H]. apply in_map_iff in H as (r & E & Hr).
      now exists r.
    + intros (Hne & r & Hr & <-).
      eapply Permutation_in; [symmetry; exact Hp|].
      apply filter_In. split.
      * apply Hin. right. now apply in_map.
      * apply negb_true_iff. now apply String.eqb_neq.
Qed.

(** X24.  [latestRow] is a row of the requested cow that no other row of
    that cow is later than; it is missing exactly when the data has no row
    of that cow. *)
Theorem latest_row_is_latest (allData : list Sim.Row) (id : string) :
  (forall r, CowData.latestRow allData id = Some r ->
     In r allData /\ Sim.cow_id r = id
     /\ forall r', In r' allData -> Sim.cow_id r' = id ->
                   (Sim.timestamp r' <= Sim.timestamp r)%Z)
  /\ (CowData.latestRow allData id = None
      <-> forall r, In r allData -> Sim.cow_id r <> id).
Proof.
  set (cowRows := filter (fun r => String.eqb (Sim.cow_id r) id) allData).
  assert (Hcow : forall r, In r cowRows
                           <-> In r allData /\ Sim.cow_id r = id).
  { intros r. unfold cowRows. rewrite filter_In, String.eqb_eq.
    reflexivity. }
  assert (E : CowData.latestRow allData id
              = hd_error (Js.sort CowData.latestFirst cowRows)).
  { unfold CowData.latestRow. destruct allData; reflexivity. }
  rewrite E.
  pose proof (sort_perm CowData.latestFirst cowRows) as Hp.
  assert (Hs : StronglySorted
                 (fun a b => (CowData.latestFirst a b <= 0)%Z)
                 (Js.sort CowData.latestFirst cowRows)).
  { apply sort_sorted; intros; unfold CowData.latestFirst in *; lia. }
  destruct (Js.sort CowData.latestFirst cowRows) as [|r0 rest] eqn:S.
  - split; [discriminate|]. split; [|reflexivity].
    intros _ r Hr Hid.
    assert (H : In r cowRows) by (apply Hcow; auto).
    eapply Permutation_in in H; [|symmetry; exact Hp]. contradiction.
  - split.
    + intros r [= <-].
      assert (H0 : In r0 cowRows)
        by (eapply Permutation_in; [exact Hp|now left]).
      apply Hcow in H0 as [H0 H0']. split; [exact H0|].
      split; [exact H0'|]. intros r' Hr' Hid.
      assert (H : In r' cowRows) by (apply Hcow; auto).
      eapply Permutation_in in H; [|symmetry; exact Hp].
      destruct H as [<-|H]; [lia|].
      apply StronglySorted_inv in Hs as [_ Hf].
      rewrite Forall_forall in Hf. specialize (Hf r' H).
      unfold CowData.latestFirst in Hf. lia.
    + split; [discriminate|]. intros Hnone. exfalso.
      assert (H0 : In r0 cowRows)
        by (eapply Permutation_in; [exact Hp|now left]).
      apply Hcow in H0 as [H0 H0']. now apply (Hnone r0).
Qed.

(** X25.  In a REPLAY over more than 24 hours the chart window still starts
    at the first row of the loaded data.  When that row is the earliest
    one, is not stamped 0, and the data spans at most 24 hours, the
    window is [first, first + historyHours], the axis minimum is its left
    end, every row of the copy shifted back by a day is stamped at or
    before that minimum, and every original row lies inside the window. *)
Theorem replay_window_starts_at_data (data : list Sim.Row) (d0 : Sim.Row)
        (rest : list Sim.Row) (historyHours t : Z) (zoomLevel : Q)
        (blocks : list Gantt.Block) :
  data = d0 :: rest ->
  (forall d, In d data -> (Sim.timestamp d0 <= Sim.timestamp d)%Z) ->
  Sim.timestamp d0 <> 0%Z ->
  (Sim.spanOf data <= 86400000)%Z -> (24 < historyHours)%Z ->
  let N := List.length data in
  let full := Sim.fullData data historyHours in
  let first := inject_Z (Sim.timestamp d0) in
  Posture.chartWindow (Some t) false zoomLevel data historyHours
  = (Some first, Some (first + inject_Z historyHours * 60 * 60 * 1000))
  /\ Gantt.axisMin (Some first) blocks = Some first
  /\ Forall (fun d => inject_Z (Sim.timestamp d) <= first) (firstn N full)
  /\ Forall (fun d => first <= inject_Z (Sim.timestamp d)
                      /\ inject_Z (Sim.timestamp d)
                         <= first + inject_Z historyHours * 60 * 60 * 1000)
            (skipn N full).
Proof.
  intros Hd Hmin Hnz Hspan Hh N full first.
  assert (Hd0 : In d0 data) by (rewrite Hd; now left).
  assert (HhQ : 24 < inject_Z historyHours)
    by (change 24 with (inject_Z 24); now rewrite <- Zlt_Qlt).
  subst full. rewrite fullData_long by exact Hh.
  set (sorted := Js.sort Sim.byTimestamp data).
  assert (HN : List.length (map (fun d => Sim.withTimestamp d
                              (Sim.timestamp d - 86400000)%Z) sorted) = N)
    by (rewrite length_map; apply sort_length).
  rewrite <- HN at 1. rewrite firstn_app, firstn_all, Nat.sub_diag.
  rewrite <- HN. rewrite skipn_app, skipn_all, Nat.sub_diag. simpl.
  rewrite app_nil_r.
  split; [rewrite Hd; reflexivity|].
  split.
  { unfold Gantt.axisMin. simpl. unfold Js.Qeqb.
    destruct (Qeq_bool first 0) eqn:E; [|reflexivity].
    apply Qeq_bool_iff in E. unfold first in E.
    change 0 with (inject_Z 0) in E.
    apply (proj1 (inject_Z_injective _ _)) in E. contradiction. }
  split.
  - apply Forall_map, Forall_forall. intros d Hin.
    apply (Permutation_in _ (sort_perm Sim.byTimestamp data)) in Hin.
    pose proof (spanOf_bound data d0 d Hd0 Hin) as Hb.
    simpl. unfold first. rewrite <- Zle_Qle. lia.
  - apply Forall_forall. intros d Hin.
    apply (Permutation_in _ (sort_perm Sim.byTimestamp data)) in Hin.
    pose proof (spanOf_bound data d0 d Hd0 Hin) as Hb.
    pose proof (Hmin d Hin) as Hlo.
    rewrite Zle_Qle in Hlo.
    assert (Hb' : inject_Z (Sim.timestamp d)
                  <= inject_Z (Sim.timestamp d0) + 86400000).
    { change 86400000 with (inject_Z 86400000).
      rewrite <- inject_Z_plus, <- Zle_Qle. lia. }
    unfold first. split; [exact Hlo|]. lra.
Qed.

Lemma replay_window_starts_at_data_witness :
  let data := [Sim.exampleRow 1733011200000;
               Sim.exampleRow 1733054400000] in
  data = Sim.exampleRow 1733011200000 :: [Sim.exampleRow 1733054400000]
  /\ (Sim.spanOf data <= 86400000)%Z /\ (24 < 48)%Z
  /\ Posture.chartWindow (Some 1733011200000%Z) false 48 data 48
     = (Some (inject_Z 1733011200000),
        Some (inject_Z 1733011200000 + inject_Z 48 * 60 * 60 * 1000)).
Proof.
  intros data.
  split; [reflexivity|]. split; [discriminate|]. split; [reflexivity|].
  apply (replay_window_starts_at_data data (Sim.exampleRow 1733011200000)
           [Sim.exampleRow 1733054400000] 48 1733011200000 48 []);
    try reflexivity; try discriminate.
  intros d [<-|[<-|[]]]; discriminate.
Defined.
